(** * ReinDFRPXSec: diffractive pion production cross section

    A shallow embedding of [src/ReinSeghal/ReinDFRPXSec.cxx] (GENIE): the
    point evaluator [XSec], the grid integrator [Integral] and the validity
    gate [ValidProcess] / [ValidKinematics].

    Numbers.  The C++ [double] is read as a real number ([R]) and the [int]
    loop counters as [nat]; rounding, overflow, infinities and NaN are
    outside this model.  A division by zero has no IEEE meaning here (in C++
    it yields an infinity or a NaN), so the statements are to be read for
    inputs where none occurs; those about signs, bounds and the integration
    range carry the hypotheses that exclude it (E > 0 or E <> 0, y > 0,
    beta > 0, M > 0).

    Effects.  [XSec] and [Integral] receive a pointer to one shared
    [Interaction].  They are written in a small state monad whose state holds
    that object together with a ghost log of the evaluator's invocations. *)

From Stdlib Require Import Reals Lra Lia List ZArith Bool.
From Stdlib Require String Ascii.
Import ListNotations.
Import String.StringSyntax Ascii.AsciiSyntax.

Delimit Scope string_scope with string.
Delimit Scope char_scope with char.

Open Scope R_scope.

(** ** Data model *)

(** [KinePhaseSpace_t]: the tag of a kinematic parameterization.  The source
    names [kPSxyfE] (the canonical one) and, in a disabled branch,
    [kPSxytfE]; every other tag of the enumeration is [kPSother]. *)
Inductive KinePhaseSpace_t : Type :=
  | kPSxyfE
  | kPSxytfE
  | kPSother (tag : nat).

Definition KinePhaseSpace_eq_dec (a b : KinePhaseSpace_t) : {a = b} + {a <> b}.
Proof. decide equality. apply Nat.eq_dec. Defined.

(** The status bits of an interaction that the model tests. *)
Inductive InteractionBit : Type :=
  | kISkipProcessChk
  | kISkipKinematicChk
  | kIAssumeFreeNucleon.

Module Kinematics.
Record t : Type := mk { x : R; y : R }.
Definition Setx (k : t) (xc : R) : t := mk xc (y k).
Definition Sety (k : t) (yc : R) : t := mk (x k) yc.
End Kinematics.

(** Modelled from the spec: the Target class is declared outside the analysed
    sources.  The spec describes it as "proton count, neutron count, identity
    of the struck nucleon"; the counts are natural numbers, the identity is
    the PDG code [HitNucPdg] that [pdg::IsProton] inspects. *)
Module Target.
Record t : Type := mk { HitNucPdg : BinNums.Z; Z : nat; N : nat }.
End Target.

Module InitialState.
(** [ProbeE] is the probe energy in the rest frame of the struck nucleon,
    the only frame the model asks for ([kRfHitNucRest]). *)
Record t : Type := mk { ProbeE : R; Tgt : Target.t }.
End InitialState.

Module ProcessInfo.
Record t : Type := mk { IsDiffractive : bool }.
End ProcessInfo.

Module Interaction.
Record t : Type := mk {
  Kine : Kinematics.t;
  InitState : InitialState.t;
  ProcInfo : ProcessInfo.t;
  SkipProcessChk : bool;
  SkipKinematicChk : bool;
  AssumeFreeNucleon : bool
}.

Definition TestBit (i : t) (b : InteractionBit) : bool :=
  match b with
  | kISkipProcessChk => SkipProcessChk i
  | kISkipKinematicChk => SkipKinematicChk i
  | kIAssumeFreeNucleon => AssumeFreeNucleon i
  end.

Definition SetBit (i : t) (b : InteractionBit) (v : bool) : t :=
  match b with
  | kISkipProcessChk =>
      mk (Kine i) (InitState i) (ProcInfo i) v (SkipKinematicChk i) (AssumeFreeNucleon i)
  | kISkipKinematicChk =>
      mk (Kine i) (InitState i) (ProcInfo i) (SkipProcessChk i) v (AssumeFreeNucleon i)
  | kIAssumeFreeNucleon =>
      mk (Kine i) (InitState i) (ProcInfo i) (SkipProcessChk i) (SkipKinematicChk i) v
  end.

(** [KinePtr()->Setx], [KinePtr()->Sety]: the kinematics are replaced, the
    rest of the object stays. *)
Definition Setx (i : t) (xc : R) : t :=
  mk (Kinematics.Setx (Kine i) xc) (InitState i) (ProcInfo i)
     (SkipProcessChk i) (SkipKinematicChk i) (AssumeFreeNucleon i).
Definition Sety (i : t) (yc : R) : t :=
  mk (Kinematics.Sety (Kine i) yc) (InitState i) (ProcInfo i)
     (SkipProcessChk i) (SkipKinematicChk i) (AssumeFreeNucleon i).
End Interaction.

Module Range1D_t.
Record t : Type := mk { min : R; max : R }.
End Range1D_t.

Module TMath.
Definition Power (a : R) (n : nat) : R := a ^ n.
Definition Exp (a : R) : R := exp a.
End TMath.

(** ** Constants and collaborators declared outside the analysed sources *)

(** Modelled from the spec: [Conventions/Constants.h] and
    [Conventions/Controls.h] are not among the sources, so the physical
    constants are parameters.  The spec builds the prefactor "from the Fermi
    coupling constant, nucleon mass, and pi" and writes the lower t limit as
    (pionMass^2/(2 Epi))^2, so [kGF2], [kPi3] and [kPionMass2] are the
    square of [kGF], the cube of [kPi] and the square of [kPionMass]. *)
Class Conventions : Type := {
  kGF : R;
  kPi : R;
  kNucleonMass : R;
  kPionMass : R;
  kMuonMass : R;
  kASmallNum : R
}.

Definition kGF2 `{Conventions} : R := kGF ^ 2.
Definition kPi3 `{Conventions} : R := kPi ^ 3.
Definition kPionMass2 `{Conventions} : R := kPionMass ^ 2.

(** The utilities the model calls: the hadronic cross-section table
    [utils::hadxs::TotalPionNucleonXSec], the phase-space transform
    [utils::kinematics::Jacobian] and [pdg::IsProton]. *)
Class Utils : Type := {
  TotalPionNucleonXSec : R -> R;
  Jacobian : Interaction.t -> KinePhaseSpace_t -> KinePhaseSpace_t -> R;
  IsProton : BinNums.Z -> bool
}.

(** The model instance: its two configured parameters. *)
Class ReinDFRPXSec : Type := {
  fMa : R;
  fBeta : R
}.

(** ** The state monad of the shared interaction *)

Record World : Type := mkWorld {
  obj : Interaction.t;
  calls : list (Interaction.t * KinePhaseSpace_t)
}.

Definition M (A : Type) : Type := World -> A * World.

Definition ret {A : Type} (a : A) : M A := fun w => (a, w).

Definition bind {A B : Type} (c : M A) (k : A -> M B) : M B :=
  fun w => let (a, w') := c w in k a w'.

Notation "x <- c1 ;; c2" := (bind c1 (fun x => c2))
  (at level 61, c1 at next level, right associativity).
Notation "c1 ;; c2" := (bind c1 (fun _ => c2))
  (at level 61, right associativity).

(** Reading the object behind the pointer. *)
Definition deref : M Interaction.t := fun w => (obj w, w).

(** [interaction->KinePtr()->Setx(xc)] and [->Sety(yc)]. *)
Definition KinePtr_Setx (xc : R) : M unit :=
  fun w => (tt, mkWorld (Interaction.Setx (obj w) xc) (calls w)).
Definition KinePtr_Sety (yc : R) : M unit :=
  fun w => (tt, mkWorld (Interaction.Sety (obj w) yc) (calls w)).

(** Ghost step: an invocation of the evaluator is appended to the log, with
    the interaction as it is at that moment. *)
Definition log_XSec (kps : KinePhaseSpace_t) : M unit :=
  fun w => (tt, mkWorld (obj w) (calls w ++ [(obj w, kps)])).

(** [for (int i = 0; i < n; i++) acc = body(i, acc)]. *)
Fixpoint for_from {A : Type} (i n : nat) (body : nat -> A -> M A) (acc : A) : M A :=
  match n with
  | O => ret acc
  | S n' => acc' <- body i acc ;; for_from (S i) n' body acc'
  end.

Definition for_loop {A : Type} (n : nat) (body : nat -> A -> M A) (acc : A) : M A :=
  for_from 0 n body acc.

(** ** The model *)

Section Model.
Context {conv : Conventions} {utils : Utils} {this : ReinDFRPXSec}.

Definition ValidProcess (interaction : Interaction.t) : bool :=
  if Interaction.TestBit interaction kISkipProcessChk then true
  else if ProcessInfo.IsDiffractive (Interaction.ProcInfo interaction) then true
  else false.

Definition ValidKinematics (interaction : Interaction.t) : bool :=
  if Interaction.TestBit interaction kISkipKinematicChk then true
  else true.

(** [XSec(interaction, kps)].  The three quotients (by [Epi], by [b] and by
    [ma2 + Q2]) are quotients of real numbers: the definition stands for the
    source where these divisors are not zero.  At a zero divisor the doubles
    are infinite or NaN; in particular at [Epi = 0] the source finds [tmin]
    infinite, its test [tmin < tmax] fails and [t_integral] stays 0.  The
    theorems that would otherwise state an ordinary value where the source
    returns another one exclude the zero divisor by hypothesis. *)
Definition XSec (kps : KinePhaseSpace_t) : M R :=
  interaction <- deref ;;
  log_XSec kps ;;
  if negb (ValidProcess interaction) then ret 0 else
  if negb (ValidKinematics interaction) then ret 0 else
  let kinematics := Interaction.Kine interaction in
  let init_state := Interaction.InitState interaction in
  let target := InitialState.Tgt init_state in
  let E := InitialState.ProbeE init_state in
  let x := Kinematics.x kinematics in
  let y := Kinematics.y kinematics in
  let Q2 := 2 * x * y * kNucleonMass * E in
  let Gf := kGF2 * kNucleonMass / (16 * kPi3) in
  let fp := 0.93 * kPionMass in
  let fp2 := TMath.Power fp 2 in
  let Epi := y * E in
  let ma2 := TMath.Power fMa 2 in
  let propg := TMath.Power (ma2 / (ma2 + Q2)) 2 in
  let sTot := TotalPionNucleonXSec Epi in
  let sTot2 := TMath.Power sTot 2 in
  let b := fBeta in
  let xsec := Gf * E * fp2 * (1 - y) * propg * sTot2 in
  let xsec :=
    if KinePhaseSpace_eq_dec kps kPSxyfE then
      let tmin := TMath.Power (0.5 * kPionMass2 / Epi) 2 in
      let tmax := 99.0 in
      let t_integral :=
        if Rlt_dec tmin tmax
        then (TMath.Exp (- b * tmin) - TMath.Exp (- b * tmax)) / b
        else 0 in
      xsec * t_integral
    else xsec in
  let xsec :=
    if KinePhaseSpace_eq_dec kps kPSxyfE then xsec
    else
      let J := Jacobian interaction kPSxyfE kps in
      xsec * J in
  if Interaction.TestBit interaction kIAssumeFreeNucleon then ret xsec else
  let nucpdgc := Target.HitNucPdg target in
  let NNucl := if IsProton nucpdgc then Target.Z target else Target.N target in
  ret (xsec * INR NNucl).

(** The body of [Integral] for a grid of [nx] by [ny] points; the source
    fixes both to 300 (see [Integral]).  The quotients by [E] are quotients
    of real numbers: the definition stands for the source where [E] is not
    zero.  At [E = 0] the doubles give the range (+infinity, -infinity) and
    the source returns 0 at once; the theorems that assert evaluations on a
    non-empty range take [E <> 0] (or [E] positive). *)
Definition Integral_grid (nx ny : nat) : M R :=
  let ml := kMuonMass in
  interaction <- deref ;;
  let init_state := Interaction.InitState interaction in
  let E := InitialState.ProbeE init_state in
  let x := Range1D_t.mk kASmallNum (1 - kASmallNum) in
  let y := Range1D_t.mk (kPionMass / E + kASmallNum) (1 - ml / E - kASmallNum) in
  if Rle_dec (Range1D_t.max y) (Range1D_t.min y) then ret 0 else
  let kps := kPSxyfE in
  let dx := (Range1D_t.max x - Range1D_t.min x) / INR (nx - 1) in
  let dy := (Range1D_t.max y - Range1D_t.min y) / INR (ny - 1) in
  for_loop nx (fun ix xsec =>
    let xc := Range1D_t.min x + INR ix * dx in
    for_loop ny (fun iy xsec =>
      let yc := Range1D_t.min y + INR iy * dy in
      KinePtr_Setx xc ;;
      KinePtr_Sety yc ;;
      v <- XSec kps ;;
      ret (xsec + dx * dy * v)) xsec) 0.

Definition Integral : M R := Integral_grid 300 300.

End Model.

(** ** Derived notions used by the statements *)

Section Analysis.
Context {conv : Conventions} {utils : Utils} {this : ReinDFRPXSec}.

(** The value [XSec] returns on interaction [i], read off a run that
    starts with an empty log (by [XSec_run] the log does not matter). *)
Definition XSec_val (i : Interaction.t) (kps : KinePhaseSpace_t) : R :=
  fst (XSec kps (mkWorld i [])).

Definition probeE (i : Interaction.t) : R :=
  InitialState.ProbeE (Interaction.InitState i).
Definition kine_x (i : Interaction.t) : R := Kinematics.x (Interaction.Kine i).
Definition kine_y (i : Interaction.t) : R := Kinematics.y (Interaction.Kine i).

(** Number of scattering centres: the proton count if the struck nucleon is
    a proton, the neutron count otherwise. *)
Definition NNucl (i : Interaction.t) : nat :=
  let target := InitialState.Tgt (Interaction.InitState i) in
  if IsProton (Target.HitNucPdg target) then Target.Z target else Target.N target.

(** The formula as the specification words it. *)
Definition Q2_spec (E x y : R) : R := 2 * x * y * kNucleonMass * E.

Definition propagator_spec (Q2 : R) : R := (fMa ^ 2 / (fMa ^ 2 + Q2)) ^ 2.

Definition tmin_spec (Epi : R) : R := (kPionMass ^ 2 / (2 * Epi)) ^ 2.

Definition tmax_spec : R := 99.

Definition t_integral_spec (Epi : R) : R :=
  if Rlt_dec (tmin_spec Epi) tmax_spec
  then (exp (- fBeta * tmin_spec Epi) - exp (- fBeta * tmax_spec)) / fBeta
  else 0.

Definition base_spec (E x y : R) : R :=
  kGF ^ 2 * kNucleonMass / (16 * kPi ^ 3) * E * (0.93 * kPionMass) ^ 2 * (1 - y)
  * propagator_spec (Q2_spec E x y) * TotalPionNucleonXSec (y * E) ^ 2.

Definition dxsec_spec (E x y : R) : R :=
  base_spec E x y * t_integral_spec (y * E).

(** Both kinematic fields overwritten, x first, as the loop body does. *)
Definition set_xy (i : Interaction.t) (p : R * R) : Interaction.t :=
  Interaction.Sety (Interaction.Setx i (fst p)) (snd p).

Definition x_range : Range1D_t.t :=
  Range1D_t.mk kASmallNum (1 - kASmallNum).

Definition y_range (E : R) : Range1D_t.t :=
  Range1D_t.mk (kPionMass / E + kASmallNum) (1 - kMuonMass / E - kASmallNum).

Definition grid_dx (nx : nat) : R :=
  (Range1D_t.max x_range - Range1D_t.min x_range) / INR (nx - 1).

Definition grid_dy (E : R) (ny : nat) : R :=
  (Range1D_t.max (y_range E) - Range1D_t.min (y_range E)) / INR (ny - 1).

Definition grid_x (nx ix : nat) : R :=
  Range1D_t.min x_range + INR ix * grid_dx nx.

Definition grid_y (E : R) (ny iy : nat) : R :=
  Range1D_t.min (y_range E) + INR iy * grid_dy E ny.

(** The grid points in the order the two loops visit them. *)
Definition grid_points (E : R) (nx ny : nat) : list (R * R) :=
  flat_map (fun ix => map (fun iy => (grid_x nx ix, grid_y E ny iy)) (seq 0 ny))
           (seq 0 nx).

(** Sum of a list of reals, and the sum of [f 0 .. f (n-1)]. *)
Definition Rsum (l : list R) : R := fold_right Rplus 0 l.

Fixpoint sum_upto (n : nat) (f : nat -> R) : R :=
  match n with
  | O => 0
  | S k => sum_upto k f + f k
  end.

(** One pass of the inner loop body at grid point [p]. *)
Definition visit (dx dy : R) (p : R * R) (s : R * World) : R * World :=
  let i := set_xy (obj (snd s)) p in
  (fst s + dx * dy * XSec_val i kPSxyfE,
   mkWorld i (calls (snd s) ++ [(i, kPSxyfE)])).

(** What holds of an interaction the integrator hands to [XSec]. *)
Definition inside_bounds (E : R) (c : Interaction.t * KinePhaseSpace_t) : Prop :=
  let x := kine_x (fst c) in
  let y := kine_y (fst c) in
  probeE (fst c) = E
  /\ snd c = kPSxyfE
  /\ kASmallNum <= x <= 1 - kASmallNum
  /\ kPionMass / E + kASmallNum <= y <= 1 - kMuonMass / E - kASmallNum
  /\ 0 < x < 1
  /\ 0 < y < 1
  /\ 0 <= 2 * x * y * kNucleonMass * E
  /\ 0 < y * E.

End Analysis.

(** ** Notions for the further properties *)

Section Frames.
Context {utils : Utils}.

(** The contract assumed of the external Jacobian where a statement needs
    it: its value is a function of the kinematics and of the initial state. *)
Definition Jacobian_kinematic : Prop :=
  forall j1 j2 from to,
    Interaction.Kine j1 = Interaction.Kine j2 ->
    Interaction.InitState j1 = Interaction.InitState j2 ->
    Jacobian j1 from to = Jacobian j2 from to.

(** Two interactions that can differ in their kinematic fields only. *)
Definition same_frame (i j : Interaction.t) : Prop :=
  Interaction.InitState i = Interaction.InitState j
  /\ Interaction.ProcInfo i = Interaction.ProcInfo j
  /\ Interaction.SkipProcessChk i = Interaction.SkipProcessChk j
  /\ Interaction.SkipKinematicChk i = Interaction.SkipKinematicChk j
  /\ Interaction.AssumeFreeNucleon i = Interaction.AssumeFreeNucleon j.

End Frames.

(** ** A sample configuration

    Values used to instantiate the statements below: constants close to the
    physical ones (GeV units), a carbon target struck on a proton, and
    simple stand-ins for the utilities. *)

Definition sample_conventions : Conventions :=
  {| kGF := 1.16639e-5;
     kPi := 3.1415927;
     kNucleonMass := 0.9389;
     kPionMass := 0.13957;
     kMuonMass := 0.10566;
     kASmallNum := 1e-6 |}.

Definition sample_utils : Utils :=
  {| TotalPionNucleonXSec := fun Epi => 25 + Epi;
     Jacobian := fun i _ _ =>
       2 * 0.9389 * InitialState.ProbeE (Interaction.InitState i)
       * Kinematics.y (Interaction.Kine i);
     IsProton := fun pdgc => Z.eqb pdgc 2212 |}.

Definition sample_model : ReinDFRPXSec :=
  {| fMa := 1.1; fBeta := 7 |}.

Definition sample_target : Target.t := Target.mk 2212 6 6.

Definition sample_interaction (E x y : R) (diffractive free : bool) : Interaction.t :=
  Interaction.mk (Kinematics.mk x y) (InitialState.mk E sample_target)
                 (ProcessInfo.mk diffractive) false false free.


(** ** The validation program (gVldNuXSecVsWorldData.cxx)

    The parts of the program that do not draw: command-line handling, the
    data-base connection, the data query and the frame computation.  ROOT,
    the data-base interface and the command-line utilities are declared
    outside the analysed sources and appear as parameters; a [float] is read
    as a real number like a [double]. *)

(** A [TGraph] as [DrawFrame] reads it: the ranges of its two axes. *)
Module TAxis.
Record t : Type := mk { GetXmin : R; GetXmax : R }.
End TAxis.

Module TGraph.
Record t : Type := mk { GetXaxis : TAxis.t; GetYaxis : TAxis.t }.
End TGraph.

(** The frame histogram: the ranges [gC->DrawFrame] was given and the axis
    decorations the four-argument [DrawFrame] sets. *)
Module TH1F.
Record t : Type := mk {
  xmin : R; ymin : R; xmax : R; ymax : R;
  XTitle : String.string; YTitle : String.string;
  YTitleSize : R; YTitleOffset : R; XLabelSize : R; YLabelSize : R
}.
End TH1F.

(** [DrawFrame(double xmin, double xmax, double ymin, double ymax)]; the
    canvas is given the corners in the order (xmin, ymin, xmax, ymax). *)
Definition DrawFrame4 (xmin xmax ymin ymax : R) : TH1F.t :=
  TH1F.mk xmin ymin xmax ymax
          "E (GeV)"%string "#sigma (10^{-38} cm^{2})"%string
          0.03 1.3 0.03 0.03.

(** [DrawFrame(TGraph * gr0, TGraph * gr1)]; a null pointer is [None]. *)
Definition DrawFrame (gr0 gr1 : option TGraph.t) : TH1F.t :=
  let xmin := 1E-5 in
  let xmax := 1 in
  let ymin := 1E-5 in
  let ymax := 1 in
  let '(xmin, xmax, ymin, ymax) :=
    match gr0 with
    | Some g0 =>
        let x0 := TGraph.GetXaxis g0 in
        let y0 := TGraph.GetYaxis g0 in
        (TAxis.GetXmin x0, TAxis.GetXmax x0, TAxis.GetXmin y0, TAxis.GetXmax y0)
    | None => (xmin, xmax, ymin, ymax)
    end in
  let '(xmin, xmax, ymin, ymax) :=
    match gr1 with
    | Some g1 =>
        let x1 := TGraph.GetXaxis g1 in
        let y1 := TGraph.GetYaxis g1 in
        (Rmin xmin (TAxis.GetXmin x1), Rmax xmax (TAxis.GetXmax x1),
         Rmin ymin (TAxis.GetXmin y1), Rmax ymax (TAxis.GetXmax y1))
    | None => (xmin, xmax, ymin, ymax)
    end in
  let xmin := xmin * 0.5 in
  let xmax := xmax * 1.5 in
  let ymin := ymin * 0.5 in
  let ymax := ymax * 1.5 in
  let xmin := Rmax 0.1 xmin in
  DrawFrame4 xmin xmax ymin ymax.

(** The keys and energy ranges of the 19 data sets. *)
Definition kNuXSecDataSets : BinNums.Z := 19%Z.

Definition kNuXSecKeyList : list String.string :=
  [ "ANL_12FT,1;ANL_12FT,3;BEBC,12;BNL_7FT,3;FNAL_15FT,3;Gargamelle,2;SERP_A1,0;SERP_A1,1;SKAT,8"%string;
    "ANL_12FT,1;ANL_12FT,3;BEBC,12;BNL_7FT,3;FNAL_15FT,3"%string;
    "Gargamelle,2;SERP_A1,0;SERP_A1,1;SKAT,8"%string;
    "BNL_7FT,2;Gargamelle,3;Gargamelle,5;SERP_A1,2;SKAT,9"%string;
    "BNL_7FT,2"%string;
    "Gargamelle,3;Gargamelle,5;SERP_A1,2;SKAT,9"%string;
    "ANL_12FT,0;ANL_12FT,5;ANL_12FT,8;BEBC,4;BEBC,9;BEBC,13;BNL_7FT,5;FNAL_15FT,0;Gargamelle,4;SKAT,4;SKAT,5"%string;
    "ANL_12FT,2;ANL_12FT,4;BEBC,0;BEBC,2;BEBC,5;BEBC,8;BNL_7FT,0;BNL_7FT,4;CCFR,2;CCFRR,0;CHARM,0;CHARM,4;FNAL_15FT,1;FNAL_15FT,2;Gargamelle,0;Gargamelle,10;Gargamelle,12;IHEP_ITEP,0;IHEP_ITEP,2;IHEP_JINR,0;SKAT,0"%string;
    "BEBC,1;BEBC,3;BEBC,6;BEBC,7;BNL_7FT,1;CCFR,3;CHARM,1;CHARM,5;FNAL_15FT,4;FNAL_15FT,5;Gargamelle,1;Gargamelle,11;Gargamelle,13;IHEP_ITEP,1;IHEP_ITEP,3;IHEP_JINR,1"%string;
    "ANL_12FT,11;BNL_7FT,8"%string;
    "ANL_12FT,12"%string;
    "ANL_12FT,13"%string;
    "CHARM,2"%string;
    "BEBC,11;CHARM,6;FNAL_15FT,8"%string;
    "BEBC,10;CHARM,7;FNAL_15FT,7"%string;
    "AachenPadova,0"%string;
    "Gargamelle,14;SKAT,3"%string;
    "SKAT,1"%string;
    "SKAT,2"%string ].

Definition kNuXSecERange : list (R * R) :=
  [ (0.1, 30.0);
    (0.1, 30.0);
    (0.1, 30.0);
    (0.1, 30.0);
    (0.1, 30.0);
    (0.1, 30.0);
    (0.1, 30.0);
    (10.0, 120.0);
    (10.0, 120.0);
    (1.0, 120.0);
    (1.0, 120.0);
    (1.0, 120.0);
    (1.0, 150.0);
    (1.0, 150.0);
    (1.0, 150.0);
    (1.0, 150.0);
    (1.0, 150.0);
    (1.0, 150.0);
    (1.0, 150.0) ].

Definition kDefDbURL : String.string := "mysql://localhost/NuScat"%string.

(** [utils::clap::CmdLineArgAsString] either returns the argument or throws
    a [CmdLineArgParserException], which tells whether the option was found
    on the command line at all. *)
Module CmdLineArgParserException.
Record t : Type := mk { ArgumentFound : bool }.
End CmdLineArgParserException.

Inductive Thrown (A : Type) : Type :=
  | Returned (a : A)
  | Raised (e : CmdLineArgParserException.t).
Arguments Returned {A} a.
Arguments Raised {A} e.

(** The collaborators of the program.  [FillTable] stands for the test
    [gDBI->FillTable(dbtable, query) == eDbu_OK] together with the table as
    filled; [print_float] is how an output stream prints a [float]. *)
Class Collaborators : Type := {
  VldTestInputs : Type;
  LoadFromFile : VldTestInputs -> String.string -> bool * VldTestInputs;
  CmdLineArgAsString : list String.string -> Ascii.ascii -> Thrown String.string;
  TSQLServer : Type;
  TSQLServer_Connect :
    String.string -> String.string -> String.string -> option TSQLServer;
  IsConnected : TSQLServer -> bool;
  DBT : Type;
  new_DBT : DBT;
  FillTable : TSQLServer -> DBT -> String.string -> bool * DBT;
  print_float : R -> String.string
}.

(** The global variables of the program; [gDBI] wraps the server it was
    created from. *)
Record Globals `{Collaborators} : Type := mkGlobals {
  gOptDbURL : String.string;
  gOptDbUser : String.string;
  gOptDbPasswd : String.string;
  gOptGenieInputs : VldTestInputs;
  gCmpWithData : bool;
  gDBI : option TSQLServer
}.
Arguments mkGlobals {_} _ _ _ _ _ _.

(** How a call ends: it returns, the program exits, an [assert] fails, or
    the behaviour is undefined (null pointer, array index out of range). *)
Inductive Outcome (A : Type) : Type :=
  | Return (a : A)
  | Exit (status : BinNums.Z)
  | AssertionFailed
  | NullPointer
  | OutOfRange.
Arguments Return {A} a.
Arguments Exit {A} status.
Arguments AssertionFailed {A}.
Arguments NullPointer {A}.
Arguments OutOfRange {A}.

Section Program.
Context {collab : Collaborators}.

Definition GetCommandLineArgs (argv : list String.string) (g : Globals)
  : Outcome Globals :=
  let after_inputs :=
    match CmdLineArgAsString argv "g"%char with
    | Returned inputs =>
        let (ok, loaded) := LoadFromFile (gOptGenieInputs g) inputs in
        let g := mkGlobals (gOptDbURL g) (gOptDbUser g) (gOptDbPasswd g)
                           loaded (gCmpWithData g) (gDBI g) in
        if negb ok then Exit 1%Z else Return g
    | Raised e =>
        if negb (CmdLineArgParserException.ArgumentFound e) then Return g
        else Return g
    end in
  match after_inputs with
  | Return g =>
      let g := mkGlobals (gOptDbURL g) (gOptDbUser g) (gOptDbPasswd g)
                         (gOptGenieInputs g) true (gDBI g) in
      let g :=
        match CmdLineArgAsString argv "h"%char with
        | Returned url =>
            mkGlobals url (gOptDbUser g) (gOptDbPasswd g)
                      (gOptGenieInputs g) (gCmpWithData g) (gDBI g)
        | Raised e =>
            if negb (CmdLineArgParserException.ArgumentFound e)
            then mkGlobals kDefDbURL (gOptDbUser g) (gOptDbPasswd g)
                           (gOptGenieInputs g) (gCmpWithData g) (gDBI g)
            else g
        end in
      let g :=
        match CmdLineArgAsString argv "u"%char with
        | Returned user =>
            mkGlobals (gOptDbURL g) user (gOptDbPasswd g)
                      (gOptGenieInputs g) (gCmpWithData g) (gDBI g)
        | Raised e =>
            if negb (CmdLineArgParserException.ArgumentFound e)
            then mkGlobals (gOptDbURL g) (gOptDbUser g) (gOptDbPasswd g)
                           (gOptGenieInputs g) false (gDBI g)
            else g
        end in
      let g :=
        match CmdLineArgAsString argv "p"%char with
        | Returned passwd =>
            mkGlobals (gOptDbURL g) (gOptDbUser g) passwd
                      (gOptGenieInputs g) (gCmpWithData g) (gDBI g)
        | Raised e =>
            if negb (CmdLineArgParserException.ArgumentFound e)
            then mkGlobals (gOptDbURL g) (gOptDbUser g) (gOptDbPasswd g)
                           (gOptGenieInputs g) false (gDBI g)
            else g
        end in
      Return g
  | other => other
  end.

Definition Connect (g : Globals) : bool * Globals :=
  if negb (gCmpWithData g) then (true, g) else
  let sql_server :=
    TSQLServer_Connect (gOptDbURL g) (gOptDbUser g) (gOptDbPasswd g) in
  match sql_server with
  | None => (false, g)
  | Some server =>
      if negb (IsConnected server) then (false, g) else
      (true, mkGlobals (gOptDbURL g) (gOptDbUser g) (gOptDbPasswd g)
                       (gOptGenieInputs g) (gCmpWithData g) (Some server))
  end.

Definition FormQuery (key_list : String.string) (emin emax : R) : String.string :=
  String.concat ""%string
    [ "KEY-LIST:"%string; key_list;
      "$CUTS:Emin="%string; print_float emin;
      ";Emax="%string; print_float emax;
      "$DRAW_OPT:none$DB-TYPE:vN-XSec"%string ].

(** [table[iset]] for a C array: defined for 0 <= iset < length only. *)
Definition array_at {A : Type} (table : list A) (iset : BinNums.Z) : option A :=
  if (iset <? 0)%Z then None else nth_error table (Z.to_nat iset).

(** [Data(iset)]: a null table is [None]. *)
Definition Data (iset : BinNums.Z) (g : Globals) : Outcome (option DBT) :=
  if negb (gCmpWithData g) then Return None else
  let dbtable := new_DBT in
  match array_at kNuXSecKeyList iset, array_at kNuXSecERange iset with
  | Some keylist, Some (e_min, e_max) =>
      let query := FormQuery keylist e_min e_max in
      match gDBI g with
      | None => NullPointer
      | Some dbi =>
          let (ok, dbtable) := FillTable dbi dbtable query in
          if ok then Return (Some dbtable) else AssertionFailed
      end
  | _, _ => OutOfRange
  end.

End Program.

(** ** Notions for the statements on the validation program *)

(** Graph [g] lies within frame [f]. *)
Definition graph_in_frame (g : TGraph.t) (f : TH1F.t) : Prop :=
  TH1F.xmin f <= TAxis.GetXmin (TGraph.GetXaxis g)
  /\ TAxis.GetXmax (TGraph.GetXaxis g) <= TH1F.xmax f
  /\ TH1F.ymin f <= TAxis.GetXmin (TGraph.GetYaxis g)
  /\ TAxis.GetXmax (TGraph.GetYaxis g) <= TH1F.ymax f.

(** Axis ranges of a cross-section graph: energies from 0.1 GeV up, cross
    sections not negative. *)
Definition plottable (g : TGraph.t) : Prop :=
  0.1 <= TAxis.GetXmin (TGraph.GetXaxis g)
  /\ 0 <= TAxis.GetXmax (TGraph.GetXaxis g)
  /\ 0 <= TAxis.GetXmin (TGraph.GetYaxis g)
  /\ 0 <= TAxis.GetXmax (TGraph.GetYaxis g).

(** The option was looked up and the exception said it is not on the
    command line. *)
Definition option_missing `{Collaborators} (argv : list String.string)
           (opt : Ascii.ascii) : bool :=
  match CmdLineArgAsString argv opt with
  | Returned _ => false
  | Raised e => negb (CmdLineArgParserException.ArgumentFound e)
  end.

(** Stand-ins for the collaborators, used to instantiate the statements:
    options are looked up as "-x value" pairs, the server always connects,
    a table is the list of the queries it was filled from. *)
Fixpoint sample_lookup (argv : list String.string) (opt : Ascii.ascii)
  : Thrown String.string :=
  match argv with
  | [] => Raised (CmdLineArgParserException.mk false)
  | a :: rest =>
      if String.eqb a (String.String "-"%char (String.String opt String.EmptyString))
      then match rest with
           | v :: _ => Returned v
           | [] => Raised (CmdLineArgParserException.mk true)
           end
      else sample_lookup rest opt
  end.

Definition sample_collaborators : Collaborators :=
  {| VldTestInputs := list String.string;
     LoadFromFile := fun loaded file => (true, file :: loaded);
     CmdLineArgAsString := sample_lookup;
     TSQLServer := String.string;
     TSQLServer_Connect := fun url _ _ => Some url;
     IsConnected := fun _ => true;
     DBT := list String.string;
     new_DBT := [];
     FillTable := fun _ table query => (true, query :: table);
     print_float := fun _ => "0"%string |}.

Definition sample_globals : @Globals sample_collaborators :=
  @mkGlobals sample_collaborators ""%string ""%string ""%string [] true None.

(** ** Basic facts: running [XSec] *)

Section XSecFacts.
Context {conv : Conventions} {utils : Utils} {this : ReinDFRPXSec}.

Lemma half_div (a b : R) : 0.5 * a / b = a / (2 * b).
Proof.
  unfold Rdiv. rewrite Rinv_mult.
  replace 0.5 with (/ 2) by lra. ring.
Qed.

(** A run of [XSec] returns a value that depends on the interaction only,
    leaves the interaction as it was and logs the invocation. *)
Lemma XSec_run (kps : KinePhaseSpace_t) (w : World) :
  XSec kps w
  = (XSec_val (obj w) kps, mkWorld (obj w) (calls w ++ [(obj w, kps)])).
Proof.
  unfold XSec_val, XSec, bind, deref, log_XSec, ret. cbn [obj calls fst].
  repeat match goal with
         | |- context [if ?c then _ else _] => destruct c
         end; reflexivity.
Qed.

Lemma XSec_val_rejected (i : Interaction.t) (kps : KinePhaseSpace_t) :
  ValidProcess i = false -> XSec_val i kps = 0.
Proof.
  intros Hv. unfold XSec_val, XSec, bind, deref, log_XSec, ret.
  cbn [obj calls fst]. rewrite Hv. reflexivity.
Qed.

Lemma ValidKinematics_true (i : Interaction.t) : ValidKinematics i = true.
Proof. unfold ValidKinematics. destruct (Interaction.TestBit _ _); reflexivity. Qed.

(** The value on an accepted interaction, by cases on the requested
    parameterization and on the free-nucleon bit. *)
Lemma XSec_val_accepted (i : Interaction.t) (kps : KinePhaseSpace_t) :
  ValidProcess i = true ->
  XSec_val i kps
  = base_spec (probeE i) (kine_x i) (kine_y i)
    * (if KinePhaseSpace_eq_dec kps kPSxyfE
       then t_integral_spec (kine_y i * probeE i)
       else Jacobian i kPSxyfE kps)
    * (if Interaction.TestBit i kIAssumeFreeNucleon then 1 else INR (NNucl i)).
Proof.
  intros Hv. unfold XSec_val, XSec, bind, deref, log_XSec, ret.
  cbn [obj calls fst]. rewrite Hv, ValidKinematics_true. cbn [negb].
  unfold base_spec, t_integral_spec, tmin_spec, tmax_spec, propagator_spec,
    Q2_spec, NNucl, probeE, kine_x, kine_y, TMath.Power, TMath.Exp,
    kGF2, kPi3, kPionMass2.
  rewrite half_div.
  replace 99.0 with 99 by lra.
  destruct (KinePhaseSpace_eq_dec kps kPSxyfE);
    destruct (Interaction.TestBit i kIAssumeFreeNucleon); cbn [fst];
    try destruct (Rlt_dec _ _); ring.
Qed.

End XSecFacts.

(** ** The integration grid *)

Section Grid.
Context {conv : Conventions} {utils : Utils} {this : ReinDFRPXSec}.

Lemma set_xy_absorb (i : Interaction.t) (p q : R * R) :
  set_xy (set_xy i p) q = set_xy i q.
Proof. reflexivity. Qed.

Lemma Rsum_app (l1 l2 : list R) : Rsum (l1 ++ l2) = Rsum l1 + Rsum l2.
Proof.
  induction l1 as [|a l1 IH]; simpl.
  - ring.
  - rewrite IH. ring.
Qed.

Lemma Rsum_seq (f : nat -> R) (n : nat) :
  Rsum (map f (seq 0 n)) = sum_upto n f.
Proof.
  induction n as [|n IH].
  - reflexivity.
  - rewrite seq_S, map_app, Rsum_app, IH. simpl. ring.
Qed.

Lemma Rsum_flat_map {A : Type} (g : A -> list R) (l : list A) :
  Rsum (flat_map g l) = Rsum (map (fun a => Rsum (g a)) l).
Proof.
  induction l as [|a l IH]; simpl.
  - reflexivity.
  - rewrite Rsum_app, IH. reflexivity.
Qed.

(** A counted loop whose body is a state transformer is the left fold of
    that transformer over the indices. *)
Lemma for_from_fold {A : Type} (body : nat -> A -> M A)
      (step : nat -> A * World -> A * World) :
  (forall k acc w, body k acc w = step k (acc, w)) ->
  forall n i acc w,
    for_from i n body acc w = fold_left (fun s k => step k s) (seq i n) (acc, w).
Proof.
  intros Hbody n. induction n as [|n IH]; intros i acc w.
  - reflexivity.
  - cbn [for_from seq fold_left]. unfold bind. rewrite Hbody.
    destruct (step i (acc, w)) as [acc' w']. apply IH.
Qed.

Lemma visit_body (dx dy xc yc acc : R) (w : World) :
  (KinePtr_Setx xc ;; KinePtr_Sety yc ;; v <- XSec kPSxyfE ;;
   ret (acc + dx * dy * v)) w
  = visit dx dy (xc, yc) (acc, w).
Proof.
  unfold bind, KinePtr_Setx, KinePtr_Sety. rewrite XSec_run. reflexivity.
Qed.

Lemma fold_visit_map {A : Type} (dx dy : R) (g : A -> R * R) (l : list A)
      (s : R * World) :
  fold_left (fun s a => visit dx dy (g a) s) l s
  = fold_left (fun s p => visit dx dy p s) (map g l) s.
Proof.
  revert s. induction l as [|a l IH]; intros s; simpl; [reflexivity | apply IH].
Qed.

Lemma fold_visit_flat_map {A : Type} (dx dy : R) (g : A -> list (R * R))
      (l : list A) (s : R * World) :
  fold_left (fun s a => fold_left (fun s p => visit dx dy p s) (g a) s) l s
  = fold_left (fun s p => visit dx dy p s) (flat_map g l) s.
Proof.
  revert s. induction l as [|a l IH]; intros s; simpl.
  - reflexivity.
  - rewrite fold_left_app. apply IH.
Qed.

(** What visiting a list of grid points does: the accumulator grows by the
    sum of the weighted point values, each taken at the starting interaction
    with x and y overwritten; the log grows by those interactions. *)
Lemma fold_visit (dx dy : R) (l : list (R * R)) (acc : R) (w : World) :
  fold_left (fun s p => visit dx dy p s) l (acc, w)
  = (acc + Rsum (map (fun p => dx * dy * XSec_val (set_xy (obj w) p) kPSxyfE) l),
     mkWorld (fold_left set_xy l (obj w))
             (calls w ++ map (fun p => (set_xy (obj w) p, kPSxyfE)) l)).
Proof.
  revert acc w. induction l as [|p l IH]; intros acc w.
  - simpl. rewrite Rplus_0_r, app_nil_r. destruct w; reflexivity.
  - cbn [fold_left]. unfold visit at 2. cbn [fst snd]. rewrite IH. cbn [obj calls].
    f_equal.
    + cbn [map Rsum fold_right]. unfold Rsum. rewrite Rplus_assoc. reflexivity.
    + f_equal. rewrite <- app_assoc. reflexivity.
Qed.

(** The two branches of [Integral_grid]. *)
Lemma Integral_grid_empty (nx ny : nat) (w : World) :
  Range1D_t.max (y_range (probeE (obj w))) <= Range1D_t.min (y_range (probeE (obj w))) ->
  Integral_grid nx ny w = (0, w).
Proof.
  intros Hle. unfold Integral_grid, bind, deref. cbv zeta.
  fold (probeE (obj w)). fold (y_range (probeE (obj w))).
  destruct (Rle_dec _ _) as [_|Hn]; [reflexivity | contradiction].
Qed.

Lemma Integral_grid_run (nx ny : nat) (w : World) :
  Range1D_t.min (y_range (probeE (obj w))) < Range1D_t.max (y_range (probeE (obj w))) ->
  let E := probeE (obj w) in
  let pts := grid_points E nx ny in
  Integral_grid nx ny w
  = (Rsum (map (fun p => grid_dx nx * grid_dy E ny
                         * XSec_val (set_xy (obj w) p) kPSxyfE) pts),
     mkWorld (fold_left set_xy pts (obj w))
             (calls w ++ map (fun p => (set_xy (obj w) p, kPSxyfE)) pts)).
Proof.
  intros Hlt E pts. unfold Integral_grid, bind, deref. cbv zeta.
  fold (probeE (obj w)). fold E. fold (y_range E). fold x_range.
  destruct (Rle_dec _ _) as [Hle|_]; [unfold E in Hle; lra|].
  fold (grid_dx nx). fold (grid_dy E ny). unfold for_loop.
  rewrite (for_from_fold _
    (fun ix s => fold_left (fun s p => visit (grid_dx nx) (grid_dy E ny) p s)
                   (map (fun iy => (grid_x nx ix, grid_y E ny iy)) (seq 0 ny)) s)).
  - rewrite (fold_visit_flat_map (grid_dx nx) (grid_dy E ny)
               (fun ix => map (fun iy => (grid_x nx ix, grid_y E ny iy)) (seq 0 ny))).
    fold (grid_points E nx ny). fold pts. rewrite fold_visit.
    rewrite Rplus_0_l. reflexivity.
  - intros ix acc w'.
    rewrite (for_from_fold _
      (fun iy s => visit (grid_dx nx) (grid_dy E ny) (grid_x nx ix, grid_y E ny iy) s)).
    + apply (fold_visit_map (grid_dx nx) (grid_dy E ny)
               (fun iy => (grid_x nx ix, grid_y E ny iy))).
    + intros iy acc' w''. apply visit_body.
Qed.

End Grid.

(** ** The point evaluator *)

Section PointEvaluation.
Context {conv : Conventions} {utils : Utils} {this : ReinDFRPXSec}.

(** C1.  On an interaction accepted by the validity gate, in the canonical
    (x,y) parameterization and with the assume-free-nucleon bit set, [XSec]
    returns GF^2 M/(16 pi^3) * E * (0.93 mpi)^2 * (1-y)
    * (Ma^2/(Ma^2+Q2))^2 * sigma(y E)^2 * T, with Q2 = 2 x y M E,
    tmin = (mpi^2/(2 y E))^2, and T = (exp(-beta tmin) - exp(-beta 99))/beta
    when tmin < 99, T = 0 otherwise.  The three divisors of the formula,
    y E, beta and Ma^2 + Q2, are taken non-zero: with a zero divisor the
    doubles are infinite or NaN (at y E = 0 the source finds tmin infinite
    and its test tmin < 99 fails), which real arithmetic does not show. *)
Theorem XSec_canonical_free_nucleon (w : World) :
  let i := obj w in
  let E := probeE i in
  let x := kine_x i in
  let y := kine_y i in
  let Q2 := 2 * x * y * kNucleonMass * E in
  let Epi := y * E in
  let tmin := (kPionMass ^ 2 / (2 * Epi)) ^ 2 in
  let tmax := 99 in
  let T := if Rlt_dec tmin tmax
           then (exp (- fBeta * tmin) - exp (- fBeta * tmax)) / fBeta
           else 0 in
  ValidProcess i = true ->
  ValidKinematics i = true ->
  Interaction.TestBit i kIAssumeFreeNucleon = true ->
  Epi <> 0 -> fBeta <> 0 -> fMa ^ 2 + Q2 <> 0 ->
  fst (XSec kPSxyfE w)
  = kGF ^ 2 * kNucleonMass / (16 * kPi ^ 3) * E * (0.93 * kPionMass) ^ 2
    * (1 - y) * (fMa ^ 2 / (fMa ^ 2 + Q2)) ^ 2
    * TotalPionNucleonXSec Epi ^ 2 * T.
Proof.
  intros i E x y Q2 Epi tmin tmax T Hvp _ Hfree _ _ _.
  rewrite XSec_run. cbn [fst]. fold i.
  rewrite (XSec_val_accepted i kPSxyfE Hvp), Hfree.
  destruct (KinePhaseSpace_eq_dec kPSxyfE kPSxyfE) as [_|Hne]; [|congruence].
  unfold base_spec, propagator_spec, Q2_spec, t_integral_spec, tmin_spec, tmax_spec.
  fold E x y. fold Epi. fold tmin. fold Q2. subst T tmax. ring.
Qed.

(** C4.  [ValidProcess] is true when the skip-process-check bit is set, and
    otherwise exactly when the process is diffractive; on an interaction it
    rejects, [XSec] returns 0 whatever the phase-space tag, the kinematics
    and the rest of the interaction are. *)
Theorem XSec_rejected_process (w : World) (kps : KinePhaseSpace_t) :
  let i := obj w in
  (ValidProcess i
   = if Interaction.TestBit i kISkipProcessChk then true
     else ProcessInfo.IsDiffractive (Interaction.ProcInfo i))
  /\ (Interaction.TestBit i kISkipProcessChk = false ->
      ProcessInfo.IsDiffractive (Interaction.ProcInfo i) = false ->
      fst (XSec kps w) = 0).
Proof.
  intros i. split.
  - unfold ValidProcess.
    destruct (Interaction.TestBit i kISkipProcessChk); [reflexivity|].
    destruct (ProcessInfo.IsDiffractive _); reflexivity.
  - intros Hskip Hdfr. rewrite XSec_run. cbn [fst].
    apply XSec_val_rejected. unfold ValidProcess. fold i.
    rewrite Hskip, Hdfr. reflexivity.
Qed.

(** C5.  Nuclear scaling.  The Jacobian is a function of the kinematics and
    of the initial state.  Then on an accepted interaction, for every
    phase-space tag, the value with the assume-free-nucleon bit cleared is
    the number of struck-type nucleons (proton count if the struck nucleon
    is a proton, neutron count otherwise) times the value with the bit set. *)
Theorem XSec_nuclear_scaling (i : Interaction.t) (kps : KinePhaseSpace_t) :
  (forall j1 j2 from to,
      Interaction.Kine j1 = Interaction.Kine j2 ->
      Interaction.InitState j1 = Interaction.InitState j2 ->
      Jacobian j1 from to = Jacobian j2 from to) ->
  ValidProcess i = true ->
  ValidKinematics i = true ->
  let target := InitialState.Tgt (Interaction.InitState i) in
  let N := if IsProton (Target.HitNucPdg target)
           then Target.Z target else Target.N target in
  XSec_val (Interaction.SetBit i kIAssumeFreeNucleon false) kps
  = INR N * XSec_val (Interaction.SetBit i kIAssumeFreeNucleon true) kps.
Proof.
  intros HJ Hvp _ target N.
  set (i0 := Interaction.SetBit i kIAssumeFreeNucleon false).
  set (i1 := Interaction.SetBit i kIAssumeFreeNucleon true).
  rewrite (XSec_val_accepted i0), (XSec_val_accepted i1) by exact Hvp.
  change (Interaction.TestBit i0 kIAssumeFreeNucleon) with false.
  change (Interaction.TestBit i1 kIAssumeFreeNucleon) with true.
  change (NNucl i0) with N.
  change (probeE i0) with (probeE i1).
  change (kine_x i0) with (kine_x i1).
  change (kine_y i0) with (kine_y i1).
  rewrite (HJ i0 i1) by reflexivity.
  ring.
Qed.

End PointEvaluation.

(** ** Sign and monotonicity of the factors *)

Section Factors.
Context {conv : Conventions} {utils : Utils} {this : ReinDFRPXSec}.

Lemma propagator_decreasing (q1 q2 : R) :
  0 < fMa -> 0 <= q1 -> q1 < q2 ->
  propagator_spec q2 < propagator_spec q1.
Proof.
  intros Hma Hq1 Hq. unfold propagator_spec.
  assert (Ha : 0 < fMa ^ 2) by (apply pow_lt; exact Hma).
  set (a := fMa ^ 2) in *.
  assert (H1 : 0 < a / (a + q2)) by (apply Rdiv_lt_0_compat; lra).
  assert (H2 : a / (a + q2) < a / (a + q1)).
  { unfold Rdiv. apply Rmult_lt_compat_l; [exact Ha|].
    apply Rinv_lt_contravar; [|lra].
    apply Rmult_lt_0_compat; lra. }
  simpl. rewrite !Rmult_1_r.
  apply Rmult_le_0_lt_compat; lra.
Qed.

Lemma propagator_nonneg (q : R) : 0 <= propagator_spec q.
Proof. unfold propagator_spec. apply pow2_ge_0. Qed.

Lemma t_integral_closed (Epi : R) :
  tmin_spec Epi < tmax_spec ->
  t_integral_spec Epi
  = (exp (- fBeta * tmin_spec Epi) - exp (- fBeta * tmax_spec)) / fBeta.
Proof.
  intros Hlt. unfold t_integral_spec.
  destruct (Rlt_dec _ _) as [_|Hn]; [reflexivity | contradiction].
Qed.

Lemma t_integral_vanished (Epi : R) :
  tmax_spec <= tmin_spec Epi -> t_integral_spec Epi = 0.
Proof.
  intros Hle. unfold t_integral_spec.
  destruct (Rlt_dec _ _) as [Hlt|_]; [lra | reflexivity].
Qed.

Lemma t_integral_pos (Epi : R) :
  0 < fBeta -> tmin_spec Epi < tmax_spec -> 0 < t_integral_spec Epi.
Proof.
  intros Hb Hlt. rewrite t_integral_closed by exact Hlt.
  apply Rdiv_lt_0_compat; [|exact Hb].
  assert (Hexp : exp (- fBeta * tmax_spec) < exp (- fBeta * tmin_spec Epi)).
  { apply exp_increasing. nra. }
  lra.
Qed.

Lemma t_integral_nonneg (Epi : R) : 0 < fBeta -> 0 <= t_integral_spec Epi.
Proof.
  intros Hb. destruct (Rlt_dec (tmin_spec Epi) tmax_spec) as [Hlt|Hge].
  - left. apply t_integral_pos; assumption.
  - right. symmetry. apply t_integral_vanished. lra.
Qed.

(** Above the pion energy mpi^2/(2 sqrt 99) the lower t limit is below 99;
    at that energy it is 99. *)
Lemma tmin_below_tmax (Epi : R) :
  kPionMass ^ 2 / (2 * sqrt 99) < Epi -> tmin_spec Epi < tmax_spec.
Proof.
  intros HE. unfold tmin_spec, tmax_spec.
  assert (Hs : 0 < sqrt 99) by (apply sqrt_lt_R0; lra).
  assert (Hss : sqrt 99 * sqrt 99 = 99) by (apply sqrt_sqrt; lra).
  assert (Ha : 0 <= kPionMass ^ 2) by apply pow2_ge_0.
  set (a := kPionMass ^ 2) in *.
  assert (H0 : 0 <= a / (2 * sqrt 99))
    by (apply Rmult_le_pos; [exact Ha | left; apply Rinv_0_lt_compat; lra]).
  assert (HEpos : 0 < Epi) by lra.
  assert (Hmul : a < 2 * sqrt 99 * Epi).
  { apply (Rmult_lt_compat_r (2 * sqrt 99)) in HE; [|lra].
    unfold Rdiv in HE. rewrite Rmult_assoc, Rinv_l, Rmult_1_r in HE by lra. lra. }
  assert (Hu0 : 0 <= a / (2 * Epi))
    by (apply Rmult_le_pos; [exact Ha | left; apply Rinv_0_lt_compat; lra]).
  assert (Hu : a / (2 * Epi) < sqrt 99).
  { apply (Rmult_lt_reg_r (2 * Epi)); [lra|].
    unfold Rdiv. rewrite Rmult_assoc, Rinv_l, Rmult_1_r by lra. lra. }
  simpl. rewrite Rmult_1_r. rewrite <- Hss.
  apply Rmult_le_0_lt_compat; lra.
Qed.

Lemma tmin_at_threshold :
  0 < kPionMass -> tmin_spec (kPionMass ^ 2 / (2 * sqrt 99)) = tmax_spec.
Proof.
  intros Hm. unfold tmin_spec, tmax_spec.
  assert (Hs : 0 < sqrt 99) by (apply sqrt_lt_R0; lra).
  assert (Hss : sqrt 99 * sqrt 99 = 99) by (apply sqrt_sqrt; lra).
  assert (Ha : 0 < kPionMass ^ 2) by (apply pow_lt; exact Hm).
  replace (kPionMass ^ 2 / (2 * (kPionMass ^ 2 / (2 * sqrt 99)))) with (sqrt 99).
  - simpl. rewrite Rmult_1_r. exact Hss.
  - field. split; lra.
Qed.

Lemma prefactor_nonneg :
  0 < kPi -> 0 <= kNucleonMass ->
  0 <= kGF ^ 2 * kNucleonMass / (16 * kPi ^ 3).
Proof.
  intros Hpi HM.
  assert (H3 : 0 < kPi ^ 3) by (apply pow_lt; exact Hpi).
  apply Rmult_le_pos.
  - apply Rmult_le_pos; [apply pow2_ge_0 | exact HM].
  - left. apply Rinv_0_lt_compat. lra.
Qed.

Lemma base_nonneg (E x y : R) :
  0 < kPi -> 0 <= kNucleonMass -> 0 <= E -> y <= 1 ->
  0 <= base_spec E x y.
Proof.
  intros Hpi HM HE Hy. unfold base_spec.
  assert (Hpre := prefactor_nonneg Hpi HM).
  apply Rmult_le_pos; [|apply pow2_ge_0].
  apply Rmult_le_pos; [|apply propagator_nonneg].
  apply Rmult_le_pos; [|lra].
  apply Rmult_le_pos; [|apply pow2_ge_0].
  apply Rmult_le_pos; assumption.
Qed.

Lemma base_factor_pos (E y : R) :
  kGF <> 0 -> 0 < kPi -> 0 < kNucleonMass -> kPionMass <> 0 ->
  0 < E -> y < 1 -> TotalPionNucleonXSec (y * E) <> 0 ->
  0 < kGF ^ 2 * kNucleonMass / (16 * kPi ^ 3) * E * (0.93 * kPionMass) ^ 2
      * (1 - y) * TotalPionNucleonXSec (y * E) ^ 2.
Proof.
  intros HG Hpi HM Hm HE Hy Hs.
  assert (H3 : 0 < kPi ^ 3) by (apply pow_lt; exact Hpi).
  assert (HG2 : 0 < kGF ^ 2).
  { destruct (pow2_ge_0 kGF) as [H|H]; [exact H|].
    exfalso. apply HG. simpl in H. nra. }
  assert (Hf2 : 0 < (0.93 * kPionMass) ^ 2).
  { destruct (pow2_ge_0 (0.93 * kPionMass)) as [H|H]; [exact H|].
    exfalso. apply Hm. simpl in H. nra. }
  assert (Hs2 : 0 < TotalPionNucleonXSec (y * E) ^ 2).
  { destruct (pow2_ge_0 (TotalPionNucleonXSec (y * E))) as [H|H]; [exact H|].
    exfalso. apply Hs. simpl in H. nra. }
  apply Rmult_lt_0_compat; [|exact Hs2].
  apply Rmult_lt_0_compat; [|lra].
  apply Rmult_lt_0_compat; [|exact Hf2].
  apply Rmult_lt_0_compat; [|exact HE].
  apply Rdiv_lt_0_compat; [|lra].
  apply Rmult_lt_0_compat; assumption.
Qed.

End Factors.

(** ** Monotonicity, sign and the t-range guard of the point value *)

Section PointValue.
Context {conv : Conventions} {utils : Utils} {this : ReinDFRPXSec}.

Lemma base_spec_split (E x y : R) :
  base_spec E x y
  = kGF ^ 2 * kNucleonMass / (16 * kPi ^ 3) * E * (0.93 * kPionMass) ^ 2
    * (1 - y) * TotalPionNucleonXSec (y * E) ^ 2
    * propagator_spec (Q2_spec E x y).
Proof. unfold base_spec. ring. Qed.

(** C6.  With the constants GF, pi, M, mpi non-zero (positive), on an
    accepted interaction in the canonical parameterization with the
    assume-free-nucleon bit set, for y in (0,1), E > 0, Ma > 0, a non-zero
    hadronic cross section at y E and a positive t-integral: if
    0 < x1 < x2 then the propagator factor at x2 is strictly below the one
    at x1, and so is the value [XSec] returns. *)
Theorem XSec_decreasing_in_x (i : Interaction.t) (x1 x2 : R) :
  let E := probeE i in
  let y := kine_y i in
  let Q2 := fun x => 2 * x * y * kNucleonMass * E in
  let propg := fun q => (fMa ^ 2 / (fMa ^ 2 + q)) ^ 2 in
  kGF <> 0 -> 0 < kPi -> 0 < kNucleonMass -> 0 < kPionMass ->
  ValidProcess i = true ->
  ValidKinematics i = true ->
  Interaction.TestBit i kIAssumeFreeNucleon = true ->
  0 < y < 1 -> 0 < E -> 0 < fMa ->
  TotalPionNucleonXSec (y * E) <> 0 ->
  0 < t_integral_spec (y * E) ->
  0 < x1 < x2 ->
  Q2 x1 < Q2 x2
  /\ propg (Q2 x2) < propg (Q2 x1)
  /\ XSec_val (Interaction.Setx i x2) kPSxyfE
     < XSec_val (Interaction.Setx i x1) kPSxyfE.
Proof.
  intros E y Q2 propg HG Hpi HM Hm Hvp _ Hfree Hy HE Hma Hs HT Hx.
  assert (HQ1 : 0 <= Q2 x1).
  { unfold Q2. repeat apply Rmult_le_pos; lra. }
  assert (HQ : Q2 x1 < Q2 x2).
  { unfold Q2. repeat apply Rmult_lt_compat_r; lra. }
  assert (HP : propg (Q2 x2) < propg (Q2 x1))
    by (apply propagator_decreasing; assumption).
  split; [exact HQ|]. split; [exact HP|].
  rewrite (XSec_val_accepted (Interaction.Setx i x2) kPSxyfE Hvp).
  rewrite (XSec_val_accepted (Interaction.Setx i x1) kPSxyfE Hvp).
  change (Interaction.TestBit (Interaction.Setx i x2) kIAssumeFreeNucleon)
    with (Interaction.TestBit i kIAssumeFreeNucleon).
  change (Interaction.TestBit (Interaction.Setx i x1) kIAssumeFreeNucleon)
    with (Interaction.TestBit i kIAssumeFreeNucleon).
  rewrite Hfree.
  destruct (KinePhaseSpace_eq_dec kPSxyfE kPSxyfE) as [_|Hne]; [|congruence].
  change (probeE (Interaction.Setx i x2)) with E.
  change (probeE (Interaction.Setx i x1)) with E.
  change (kine_y (Interaction.Setx i x2)) with y.
  change (kine_y (Interaction.Setx i x1)) with y.
  change (kine_x (Interaction.Setx i x2)) with x2.
  change (kine_x (Interaction.Setx i x1)) with x1.
  rewrite !base_spec_split, !Rmult_1_r.
  assert (HF := base_factor_pos E y HG Hpi HM (Rgt_not_eq _ _ Hm) HE (proj2 Hy) Hs).
  apply Rmult_lt_compat_r; [exact HT|].
  apply Rmult_lt_compat_l; [exact HF|].
  exact HP.
Qed.


End PointValue.

(** ** Facts about the grid *)

Section GridFacts.
Context {conv : Conventions} {utils : Utils} {this : ReinDFRPXSec}.

Lemma INR_299 : INR (300 - 1) = 299.
Proof.
  rewrite INR_IZR_INZ. f_equal.
Qed.

(** A point [lo + k * ((hi - lo)/(n-1))] with [k < n] lies in [[lo, hi]]. *)
Lemma grid_coordinate_bounds (lo hi : R) (n k : nat) :
  lo <= hi -> (k < n)%nat ->
  lo <= lo + INR k * ((hi - lo) / INR (n - 1)) <= hi.
Proof.
  intros Hle Hk. destruct k as [|k].
  - simpl. lra.
  - assert (Hm : (S k <= n - 1)%nat) by lia.
    assert (Hc : INR (S k) <= INR (n - 1)) by (apply le_INR; exact Hm).
    assert (Hc0 : 0 < INR (S k)) by (apply lt_0_INR; lia).
    set (c := INR (S k)) in *. set (m := INR (n - 1)) in *.
    assert (Hinv : 0 < / m) by (apply Rinv_0_lt_compat; lra).
    assert (Hcm : c * / m <= 1).
    { apply (Rmult_le_reg_r m); [lra|].
      rewrite Rmult_assoc, Rinv_l by lra. lra. }
    assert (Hcm0 : 0 <= c * / m) by (apply Rmult_le_pos; lra).
    replace (c * ((hi - lo) / m)) with (c * / m * (hi - lo))
      by (unfold Rdiv; ring).
    split; nra.
Qed.

Lemma grid_coordinate_last (lo hi : R) (n : nat) :
  (2 <= n)%nat ->
  lo + INR (n - 1) * ((hi - lo) / INR (n - 1)) = hi.
Proof.
  intros Hn. assert (Hm : 0 < INR (n - 1)) by (apply lt_0_INR; lia).
  field. lra.
Qed.

Lemma grid_coordinate_first (lo d : R) : lo + INR 0 * d = lo.
Proof. simpl. ring. Qed.

Lemma in_grid_points (E : R) (nx ny : nat) (p : R * R) :
  In p (grid_points E nx ny) ->
  exists ix iy, (ix < nx)%nat /\ (iy < ny)%nat
                /\ p = (grid_x nx ix, grid_y E ny iy).
Proof.
  unfold grid_points. intros Hin.
  apply in_flat_map in Hin. destruct Hin as [ix [Hix Hin]].
  apply in_map_iff in Hin. destruct Hin as [iy [Hp Hiy]].
  apply in_seq in Hix. apply in_seq in Hiy.
  exists ix, iy. repeat split; [lia | lia | symmetry; exact Hp].
Qed.

Lemma length_flat_map_rows {A : Type} (g : nat -> nat -> A) (ny n s : nat) :
  length (flat_map (fun ix => map (g ix) (seq 0 ny)) (seq s n)) = (n * ny)%nat.
Proof.
  revert s. induction n as [|n IH]; intros s.
  - reflexivity.
  - cbn [seq flat_map]. rewrite length_app, length_map, length_seq, IH.
    reflexivity.
Qed.

Lemma length_grid_points (E : R) (nx ny : nat) :
  length (grid_points E nx ny) = (nx * ny)%nat.
Proof.
  unfold grid_points.
  apply (length_flat_map_rows (fun ix iy => (grid_x nx ix, grid_y E ny iy))).
Qed.

Lemma grid_points_last (E : R) (nx ny : nat) :
  exists l,
    grid_points E (S nx) (S ny)
    = l ++ [(grid_x (S nx) nx, grid_y E (S ny) ny)].
Proof.
  unfold grid_points. rewrite (seq_S nx 0), flat_map_app. cbn [flat_map].
  rewrite app_nil_r, (seq_S ny 0), map_app. cbn [map].
  rewrite app_assoc. eexists. reflexivity.
Qed.

Lemma set_xy_fold (l : list (R * R)) (i : Interaction.t) (p : R * R) :
  set_xy (fold_left set_xy l i) p = set_xy i p.
Proof.
  revert i. induction l as [|q l IH]; intros i.
  - reflexivity.
  - cbn [fold_left]. rewrite IH. apply set_xy_absorb.
Qed.

Lemma fold_set_xy_cases (l : list (R * R)) (i : Interaction.t) :
  fold_left set_xy l i = i \/ exists p, fold_left set_xy l i = set_xy i p.
Proof.
  destruct l as [|q l] using rev_ind.
  - left. reflexivity.
  - right. exists q. rewrite fold_left_app. cbn [fold_left]. apply set_xy_fold.
Qed.

(** The y range is empty exactly at or below the threshold energy. *)
Lemma y_range_empty_iff (E : R) :
  0 < E -> kASmallNum < 1 / 2 ->
  (Range1D_t.max (y_range E) <= Range1D_t.min (y_range E)
   <-> E <= (kPionMass + kMuonMass) / (1 - 2 * kASmallNum)).
Proof.
  intros HE He. unfold y_range. cbn [Range1D_t.max Range1D_t.min].
  set (c := 1 - 2 * kASmallNum). assert (Hc : 0 < c) by (unfold c; lra).
  set (s := kPionMass + kMuonMass).
  assert (H1 : kPionMass / E + kMuonMass / E = s / E) by (unfold s; field; lra).
  assert (H2 : s / E * E = s) by (field; lra).
  assert (H3 : s / c * c = s) by (field; lra).
  split; intros H.
  - assert (Hle : c <= s / E) by (unfold c; lra).
    apply (Rmult_le_reg_r c); [exact Hc|]. rewrite H3.
    rewrite <- H2. rewrite (Rmult_comm E c).
    apply Rmult_le_compat_r; lra.
  - assert (Hle : c <= s / E).
    { apply (Rmult_le_reg_r E); [exact HE|]. rewrite H2, <- H3.
      rewrite (Rmult_comm c E). apply Rmult_le_compat_r; lra. }
    unfold c in Hle. lra.
Qed.

End GridFacts.

(** ** The integrator *)

Section Integrator.
Context {conv : Conventions} {utils : Utils} {this : ReinDFRPXSec}.

Lemma sum_upto_ext (f g : nat -> R) (n : nat) :
  (forall k, f k = g k) -> sum_upto n f = sum_upto n g.
Proof.
  intros Hfg. induction n as [|n IH]; simpl; [reflexivity|].
  rewrite IH, Hfg. reflexivity.
Qed.

Lemma map_flat_map_rows {A B : Type} (f : A -> B) (g : nat -> nat -> A)
      (l : list nat) (ny : nat) :
  map f (flat_map (fun ix => map (g ix) (seq 0 ny)) l)
  = flat_map (fun ix => map (fun iy => f (g ix iy)) (seq 0 ny)) l.
Proof.
  induction l as [|a l IH]; cbn [flat_map map]; [reflexivity|].
  rewrite map_app, map_map, IH. reflexivity.
Qed.

Lemma Rsum_rows (f : nat -> nat -> R) (nx ny : nat) :
  Rsum (flat_map (fun ix => map (f ix) (seq 0 ny)) (seq 0 nx))
  = sum_upto nx (fun ix => sum_upto ny (f ix)).
Proof.
  rewrite Rsum_flat_map.
  rewrite (Rsum_seq (fun ix => Rsum (map (f ix) (seq 0 ny)))).
  apply sum_upto_ext. intros ix. apply Rsum_seq.
Qed.

(** C2.  When the y range (mpi/E + eps, 1 - mmu/E - eps) is non-empty (and
    E is not 0), [Integral] returns the double sum over the 300 by 300 grid
    of dx dy times the canonical point value at the grid point
    (x.min + ix dx, y.min + iy dy), where dx = (x.max - x.min)/(300 - 1),
    dy = (y.max - y.min)/(300 - 1) and x ranges over (eps, 1 - eps).  The
    first and last grid coordinates are the endpoints of the ranges.  Each
    evaluation sees the shared interaction with its x and y overwritten by
    the grid coordinates, in loop order, and the interaction is left at the
    last grid point. *)
Theorem Integral_is_grid_sum (w : World) :
  let i := obj w in
  let E := probeE i in
  let x := Range1D_t.mk kASmallNum (1 - kASmallNum) in
  let y := Range1D_t.mk (kPionMass / E + kASmallNum)
                        (1 - kMuonMass / E - kASmallNum) in
  let dx := (Range1D_t.max x - Range1D_t.min x) / (300 - 1) in
  let dy := (Range1D_t.max y - Range1D_t.min y) / (300 - 1) in
  let xc := fun ix : nat => Range1D_t.min x + INR ix * dx in
  let yc := fun iy : nat => Range1D_t.min y + INR iy * dy in
  let point := fun ix iy : nat =>
    Interaction.Sety (Interaction.Setx i (xc ix)) (yc iy) in
  E <> 0 ->
  Range1D_t.min y < Range1D_t.max y ->
  fst (Integral w)
  = sum_upto 300 (fun ix =>
      sum_upto 300 (fun iy => dx * dy * XSec_val (point ix iy) kPSxyfE))
  /\ xc 0%nat = Range1D_t.min x /\ xc 299%nat = Range1D_t.max x
  /\ yc 0%nat = Range1D_t.min y /\ yc 299%nat = Range1D_t.max y
  /\ calls (snd (Integral w))
     = calls w
       ++ flat_map (fun ix => map (fun iy => (point ix iy, kPSxyfE)) (seq 0 300))
                   (seq 0 300)
  /\ obj (snd (Integral w)) = point 299%nat 299%nat.
Proof.
  intros i E x y dx dy xc yc point _ Hne.
  assert (Hdx : dx = grid_dx 300).
  { unfold dx, grid_dx. rewrite INR_299. fold x. f_equal. lra. }
  assert (Hdy : dy = grid_dy E 300).
  { unfold dy, grid_dy. rewrite INR_299. fold y. f_equal. lra. }
  assert (Hxc : forall ix, xc ix = grid_x 300 ix).
  { intros ix. unfold xc, grid_x. rewrite Hdx. reflexivity. }
  assert (Hyc : forall iy, yc iy = grid_y E 300 iy).
  { intros iy. unfold yc, grid_y. rewrite Hdy. reflexivity. }
  assert (Hpt : forall ix iy,
             point ix iy = set_xy i (grid_x 300 ix, grid_y E 300 iy)).
  { intros ix iy. unfold point, set_xy. cbn [fst snd].
    rewrite Hxc, Hyc. reflexivity. }
  unfold Integral. rewrite (Integral_grid_run 300 300 w Hne).
  fold i. fold E. cbn [fst snd obj calls].
  split; [|split; [|split; [|split; [|split; [|split]]]]].
  - unfold grid_points.
    rewrite (map_flat_map_rows
               (fun p => grid_dx 300 * grid_dy E 300 * XSec_val (set_xy i p) kPSxyfE)
               (fun ix iy => (grid_x 300 ix, grid_y E 300 iy))).
    rewrite (Rsum_rows
               (fun ix iy => grid_dx 300 * grid_dy E 300
                             * XSec_val (set_xy i (grid_x 300 ix, grid_y E 300 iy))
                                        kPSxyfE)).
    apply sum_upto_ext. intros ix. apply sum_upto_ext. intros iy.
    rewrite Hpt, Hdx, Hdy. reflexivity.
  - unfold xc. apply grid_coordinate_first.
  - unfold xc, dx. change 299%nat with (300 - 1)%nat.
    replace (300 - 1) with (INR (300 - 1)) by (rewrite INR_299; lra).
    apply grid_coordinate_last. lia.
  - unfold yc. apply grid_coordinate_first.
  - unfold yc, dy. change 299%nat with (300 - 1)%nat.
    replace (300 - 1) with (INR (300 - 1)) by (rewrite INR_299; lra).
    apply grid_coordinate_last. lia.
  - f_equal. unfold grid_points.
    rewrite (map_flat_map_rows
               (fun p => (set_xy i p, kPSxyfE))
               (fun ix iy => (grid_x 300 ix, grid_y E 300 iy))).
    apply flat_map_ext. intros ix. apply map_ext. intros iy.
    rewrite Hpt. reflexivity.
  - destruct (grid_points_last E 299 299) as [l Hl].
    rewrite Hl, fold_left_app. cbn [fold_left].
    rewrite set_xy_fold, Hpt. reflexivity.
Qed.

(** C3.  When the y range is empty, that is when
    1 - mmu/E - eps <= mpi/E + eps, [Integral] returns 0 and leaves the
    interaction and the log of evaluations as they were: the formula is
    evaluated at no grid point.  For a positive energy E (and eps < 1/2) the
    range is empty exactly when E <= (mpi + mmu)/(1 - 2 eps). *)
Theorem Integral_below_threshold (w : World) :
  let E := probeE (obj w) in
  (1 - kMuonMass / E - kASmallNum <= kPionMass / E + kASmallNum ->
   Integral w = (0, w))
  /\ (0 < E -> kASmallNum < 1 / 2 ->
      (1 - kMuonMass / E - kASmallNum <= kPionMass / E + kASmallNum
       <-> E <= (kPionMass + kMuonMass) / (1 - 2 * kASmallNum)))
  /\ (0 < E -> kASmallNum < 1 / 2 ->
      E <= (kPionMass + kMuonMass) / (1 - 2 * kASmallNum) ->
      fst (Integral w) = 0 /\ calls (snd (Integral w)) = calls w).
Proof.
  intros E. split; [|split].
  - intros Hle. unfold Integral. apply Integral_grid_empty. exact Hle.
  - intros HE He. apply (y_range_empty_iff E HE He).
  - intros HE He Hthr. apply (y_range_empty_iff E HE He) in Hthr.
    unfold Integral. rewrite Integral_grid_empty by exact Hthr.
    split; reflexivity.
Qed.

End Integrator.

(** ** Where the integrator evaluates, and what it leaves untouched *)

Section IntegratorInvariants.
Context {conv : Conventions} {utils : Utils} {this : ReinDFRPXSec}.

Lemma above_threshold (E : R) :
  0 < kASmallNum < 1 / 2 -> 0 < kPionMass -> 0 <= kMuonMass ->
  (kPionMass + kMuonMass) / (1 - 2 * kASmallNum) < E ->
  0 < E /\ Range1D_t.min (y_range E) < Range1D_t.max (y_range E).
Proof.
  intros He Hpi Hmu Hthr.
  assert (HE : 0 < E).
  { apply Rle_lt_trans with (2 := Hthr).
    apply Rmult_le_pos; [lra|]. left. apply Rinv_0_lt_compat. lra. }
  split; [exact HE|].
  apply Rnot_le_lt. intros Hle.
  apply (y_range_empty_iff E HE (proj2 He)) in Hle. lra.
Qed.

(** Every logged evaluation of a run of the integrator is at a grid point. *)
Lemma Integral_calls (i : Interaction.t) :
  let E := probeE i in
  Range1D_t.min (y_range E) < Range1D_t.max (y_range E) ->
  calls (snd (Integral (mkWorld i [])))
  = map (fun p => (set_xy i p, kPSxyfE)) (grid_points E 300 300).
Proof.
  intros E Hne. unfold Integral.
  rewrite (Integral_grid_run 300 300 (mkWorld i []) Hne). reflexivity.
Qed.

Lemma grid_point_inside (E : R) (ix iy : nat) :
  0 < kASmallNum < 1 / 2 -> 0 < kPionMass -> 0 <= kMuonMass -> 0 < E ->
  Range1D_t.min (y_range E) < Range1D_t.max (y_range E) ->
  (ix < 300)%nat -> (iy < 300)%nat ->
  kASmallNum <= grid_x 300 ix <= 1 - kASmallNum
  /\ kPionMass / E + kASmallNum <= grid_y E 300 iy
     <= 1 - kMuonMass / E - kASmallNum
  /\ 0 < kPionMass / E /\ 0 <= kMuonMass / E.
Proof.
  intros He Hpi Hmu HE Hne Hix Hiy.
  assert (Hinv : 0 < / E) by (apply Rinv_0_lt_compat; exact HE).
  split; [|split; [|split]].
  - apply (grid_coordinate_bounds kASmallNum (1 - kASmallNum) 300 ix); [lra | exact Hix].
  - apply (grid_coordinate_bounds (kPionMass / E + kASmallNum)
             (1 - kMuonMass / E - kASmallNum) 300 iy); [|exact Hiy].
    left. exact Hne.
  - apply Rmult_lt_0_compat; assumption.
  - apply Rmult_le_pos; lra.
Qed.

(** C8.  With 0 < eps < 1/2, mpi > 0, mmu >= 0 and M >= 0: for an energy
    above the threshold (mpi + mmu)/(1 - 2 eps), the integrator evaluates
    [XSec] 300 * 300 times, and every interaction it evaluates has
    eps <= x <= 1 - eps and mpi/E + eps <= y <= 1 - mmu/E - eps, hence
    0 < x < 1 and 0 < y < 1, a non-negative Q2 = 2 x y M E and a positive
    pion energy y E. *)
Theorem Integral_grid_inside (i : Interaction.t) :
  let E := probeE i in
  0 < kASmallNum < 1 / 2 -> 0 < kPionMass -> 0 <= kMuonMass ->
  0 <= kNucleonMass ->
  (kPionMass + kMuonMass) / (1 - 2 * kASmallNum) < E ->
  let log := calls (snd (Integral (mkWorld i []))) in
  length log = (300 * 300)%nat
  /\ Forall (inside_bounds E) log.
Proof.
  intros E He Hpi Hmu HM Hthr log.
  destruct (above_threshold E He Hpi Hmu Hthr) as [HE Hne].
  unfold log. rewrite (Integral_calls i Hne). fold E. split.
  - rewrite length_map. apply length_grid_points.
  - apply Forall_forall. intros c Hc.
    apply in_map_iff in Hc. destruct Hc as [p [Hc Hp]]. subst c.
    apply in_grid_points in Hp. destruct Hp as [ix [iy [Hix [Hiy Hp]]]]. subst p.
    destruct (grid_point_inside E ix iy He Hpi Hmu HE Hne Hix Hiy)
      as [Hx [Hy [Hpe Hme]]].
    unfold inside_bounds. cbn [fst snd].
    change (kine_x (set_xy i (grid_x 300 ix, grid_y E 300 iy))) with (grid_x 300 ix).
    change (kine_y (set_xy i (grid_x 300 ix, grid_y E 300 iy))) with (grid_y E 300 iy).
    change (probeE (set_xy i (grid_x 300 ix, grid_y E 300 iy))) with E.
    set (x := grid_x 300 ix) in *. set (y := grid_y E 300 iy) in *.
    assert (Hx01 : 0 < x < 1) by lra.
    assert (Hy01 : 0 < y < 1) by lra.
    repeat split; try lra.
    + repeat apply Rmult_le_pos; lra.
    + apply Rmult_lt_0_compat; lra.
Qed.

(** C9.  A run of [XSec] leaves the interaction as it was.  A run of
    [Integral] leaves the initial state (with the target), the process
    information and every status bit as they were: only the kinematic
    fields x and y can differ. *)
Theorem XSec_Integral_frame (w : World) (kps : KinePhaseSpace_t) :
  obj (snd (XSec kps w)) = obj w
  /\ (let i' := obj (snd (Integral w)) in
      Interaction.InitState i' = Interaction.InitState (obj w)
      /\ Interaction.ProcInfo i' = Interaction.ProcInfo (obj w)
      /\ (forall b, Interaction.TestBit i' b = Interaction.TestBit (obj w) b)
      /\ i' = Interaction.Sety
                (Interaction.Setx (obj w) (kine_x i')) (kine_y i')).
Proof.
  split.
  - rewrite XSec_run. reflexivity.
  - cbv zeta. unfold Integral.
    set (E := probeE (obj w)).
    destruct (Rle_dec (Range1D_t.max (y_range E)) (Range1D_t.min (y_range E)))
      as [Hle|Hgt].
    + rewrite (Integral_grid_empty 300 300 w Hle). cbn [snd].
      destruct (obj w) as [[x y] ist pinfo b1 b2 b3].
      repeat split.
    + apply Rnot_le_lt in Hgt.
      rewrite (Integral_grid_run 300 300 w Hgt). cbn [snd obj].
      destruct (fold_set_xy_cases (grid_points (probeE (obj w)) 300 300) (obj w))
        as [Heq|[p Heq]]; rewrite Heq.
      * destruct (obj w) as [[x y] ist pinfo b1 b2 b3].
        repeat split.
      * destruct p as [xc yc]. repeat split.
Qed.

(** C10.  For beta > 0: when the pion energy y E is strictly above
    mpi^2/(2 sqrt 99), the lower limit tmin = (mpi^2/(2 y E))^2 is below
    99, the value of [XSec] in the canonical parameterization on an accepted
    interaction carries the closed-form factor
    (exp(-beta tmin) - exp(-beta 99))/beta, and that factor is strictly
    positive.  With eps > 0, 0 < mpi < 2 sqrt 99 and E > 0, this is the case
    at every interaction the integrator evaluates, where y E > mpi. *)
Theorem t_range_guard (i : Interaction.t) :
  let E := probeE i in
  let Epi := kine_y i * E in
  let tmin := (kPionMass ^ 2 / (2 * Epi)) ^ 2 in
  let T := (exp (- fBeta * tmin) - exp (- fBeta * 99)) / fBeta in
  0 < fBeta ->
  (kPionMass ^ 2 / (2 * sqrt 99) < Epi ->
   tmin < 99
   /\ 0 < T
   /\ (ValidProcess i = true ->
       XSec_val i kPSxyfE
       = base_spec E (kine_x i) (kine_y i) * T
         * (if Interaction.TestBit i kIAssumeFreeNucleon
            then 1 else INR (NNucl i))))
  /\ (0 < kASmallNum -> 0 < kPionMass < 2 * sqrt 99 -> 0 < E ->
      kPionMass / E + kASmallNum < 1 - kMuonMass / E - kASmallNum ->
      Forall (fun c =>
                let Epi' := kine_y (fst c) * probeE (fst c) in
                kPionMass < Epi'
                /\ kPionMass ^ 2 / (2 * sqrt 99) < Epi'
                /\ 0 < t_integral_spec Epi')
             (calls (snd (Integral (mkWorld i []))))).
Proof.
  intros E Epi tmin T Hb.
  assert (Hpoint : forall e, kPionMass ^ 2 / (2 * sqrt 99) < e ->
                             tmin_spec e < tmax_spec /\ 0 < t_integral_spec e).
  { intros e He. assert (Hlt := tmin_below_tmax e He).
    split; [exact Hlt | apply t_integral_pos; assumption]. }
  split.
  - intros HEpi. destruct (Hpoint Epi HEpi) as [Hlt HT].
    rewrite (t_integral_closed Epi Hlt) in HT.
    split; [exact Hlt|]. split; [exact HT|].
    intros Hvp. rewrite (XSec_val_accepted i kPSxyfE Hvp).
    destruct (KinePhaseSpace_eq_dec kPSxyfE kPSxyfE) as [_|Hne]; [|congruence].
    fold E. fold Epi. rewrite (t_integral_closed Epi Hlt). reflexivity.
  - intros He Hpi HE Hne.
    change (Range1D_t.min (y_range E) < Range1D_t.max (y_range E)) in Hne.
    rewrite (Integral_calls i Hne). fold E.
    apply Forall_forall. intros c Hc.
    apply in_map_iff in Hc. destruct Hc as [p [Hc Hp]]. subst c.
    apply in_grid_points in Hp. destruct Hp as [ix [iy [Hix [Hiy Hp]]]]. subst p.
    cbn [fst].
    change (kine_y (set_xy i (grid_x 300 ix, grid_y E 300 iy))) with (grid_y E 300 iy).
    change (probeE (set_xy i (grid_x 300 ix, grid_y E 300 iy))) with E.
    assert (Hy : kPionMass / E + kASmallNum <= grid_y E 300 iy).
    { apply (grid_coordinate_bounds (kPionMass / E + kASmallNum)
               (1 - kMuonMass / E - kASmallNum) 300 iy); [|exact Hiy].
      left. exact Hne. }
    set (y := grid_y E 300 iy) in *.
    assert (HyE : kPionMass < y * E).
    { assert (H1 : kPionMass / E * E = kPionMass) by (field; lra).
      rewrite <- H1 at 1. apply Rmult_lt_compat_r; lra. }
    assert (Hthr : kPionMass ^ 2 / (2 * sqrt 99) < y * E).
    { apply Rle_lt_trans with (2 := HyE).
      assert (Hs : 0 < sqrt 99) by (apply sqrt_lt_R0; lra).
      apply (Rmult_le_reg_r (2 * sqrt 99)); [lra|].
      unfold Rdiv. rewrite Rmult_assoc, Rinv_l, Rmult_1_r by lra.
      simpl. nra. }
    split; [exact HyE|]. split; [exact Hthr|].
    apply (Hpoint (y * E) Hthr).
Qed.

End IntegratorInvariants.

(** ** The statements at the sample configuration *)

Section Samples.
#[local] Existing Instance sample_conventions.
#[local] Existing Instance sample_utils.
#[local] Existing Instance sample_model.

Lemma sqrt_99_bounds : 9.9 < sqrt 99 < 10.
Proof.
  split.
  - replace 9.9 with (sqrt (9.9 * 9.9)) by (apply sqrt_square; lra).
    apply sqrt_lt_1_alt. lra.
  - replace 10 with (sqrt (10 * 10)) by (apply sqrt_square; lra).
    apply sqrt_lt_1_alt. lra.
Qed.

Lemma sample_threshold_energy : kPionMass ^ 2 / (2 * sqrt 99) < 0.001.
Proof.
  destruct sqrt_99_bounds as [Hlo _].
  apply (Rmult_lt_reg_r (2 * sqrt 99)); [lra|].
  unfold Rdiv. rewrite Rmult_assoc, Rinv_l, Rmult_1_r by lra.
  cbn [kPionMass sample_conventions]. lra.
Qed.

(** The end-to-end scenario of the specification: E = 5 GeV, x = 0.1,
    y = 0.3, free nucleon. *)
Lemma XSec_canonical_free_nucleon_witness :
  fst (XSec kPSxyfE (mkWorld (sample_interaction 5 0.1 0.3 true true) []))
  = dxsec_spec 5 0.1 0.3.
Proof.
  refine (XSec_canonical_free_nucleon
            (mkWorld (sample_interaction 5 0.1 0.3 true true) [])
            eq_refl eq_refl eq_refl _ _ _);
    cbn [obj kine_x kine_y probeE sample_interaction Interaction.Kine
         Interaction.InitState InitialState.ProbeE Kinematics.x Kinematics.y
         fBeta fMa sample_model kNucleonMass sample_conventions];
    lra.
Defined.

(** A non-diffractive process without the skip bit, in a non-canonical
    parameterization. *)
Lemma XSec_rejected_process_witness :
  ValidProcess (sample_interaction 5 0.1 0.3 false false) = false
  /\ fst (XSec kPSxytfE (mkWorld (sample_interaction 5 0.1 0.3 false false) [])) = 0.
Proof.
  split.
  - reflexivity.
  - apply (proj2 (XSec_rejected_process
                    (mkWorld (sample_interaction 5 0.1 0.3 false false) [])
                    kPSxytfE)); reflexivity.
Defined.

(** Carbon struck on a proton: six scattering centres. *)
Lemma XSec_nuclear_scaling_witness :
  XSec_val (sample_interaction 5 0.1 0.3 true false) kPSxytfE
  = INR 6 * XSec_val (sample_interaction 5 0.1 0.3 true true) kPSxytfE.
Proof.
  refine (XSec_nuclear_scaling (sample_interaction 5 0.1 0.3 true false) kPSxytfE
            _ eq_refl eq_refl).
  intros j1 j2 from to HK HI. cbn [Jacobian sample_utils].
  rewrite HK, HI. reflexivity.
Defined.

Lemma XSec_decreasing_in_x_witness :
  XSec_val (sample_interaction 5 0.2 0.3 true true) kPSxyfE
  < XSec_val (sample_interaction 5 0.1 0.3 true true) kPSxyfE.
Proof.
  apply (XSec_decreasing_in_x (sample_interaction 5 0.1 0.3 true true) 0.1 0.2);
    cbn [kGF kPi kNucleonMass kPionMass fMa sample_conventions sample_model
         TotalPionNucleonXSec sample_utils probeE kine_y sample_interaction
         Interaction.InitState Interaction.Kine InitialState.ProbeE Kinematics.y];
    try reflexivity; try lra.
  apply t_integral_pos.
  - cbn [fBeta sample_model]. lra.
  - apply tmin_below_tmax. assert (H := sample_threshold_energy). lra.
Defined.


Lemma Integral_is_grid_sum_witness :
  obj (snd (Integral (mkWorld (sample_interaction 5 0.1 0.3 true true) [])))
  = sample_interaction 5 (1 - 1e-6) (1 - 0.10566 / 5 - 1e-6) true true.
Proof.
  assert (H := Integral_is_grid_sum
                 (mkWorld (sample_interaction 5 0.1 0.3 true true) [])).
  cbv zeta in H.
  destruct H as (_ & _ & Hx & _ & Hy & _ & Hobj).
  - cbn [obj probeE sample_interaction Interaction.InitState InitialState.ProbeE]. lra.
  - cbn [obj probeE sample_interaction Interaction.InitState InitialState.ProbeE
         Range1D_t.min Range1D_t.max kPionMass kMuonMass kASmallNum
         sample_conventions]. lra.
  - rewrite Hobj, Hx, Hy. reflexivity.
Defined.

(** E = 0.2 GeV is below the threshold. *)
Lemma Integral_below_threshold_witness :
  Integral (mkWorld (sample_interaction 0.2 0.1 0.3 true true) [])
  = (0, mkWorld (sample_interaction 0.2 0.1 0.3 true true) []).
Proof.
  apply (proj1 (Integral_below_threshold
                  (mkWorld (sample_interaction 0.2 0.1 0.3 true true) []))).
  cbn [obj probeE sample_interaction Interaction.InitState InitialState.ProbeE
       kPionMass kMuonMass kASmallNum sample_conventions]. lra.
Defined.

Lemma Integral_grid_inside_witness :
  let log := calls (snd (Integral (mkWorld (sample_interaction 5 0.1 0.3 true true) []))) in
  length log = (300 * 300)%nat /\ Forall (inside_bounds 5) log.
Proof.
  apply (Integral_grid_inside (sample_interaction 5 0.1 0.3 true true));
    cbn [probeE sample_interaction Interaction.InitState InitialState.ProbeE
         kPionMass kMuonMass kASmallNum kNucleonMass sample_conventions];
    lra.
Defined.

Lemma t_range_guard_witness :
  (kPionMass ^ 2 / (2 * (0.3 * 5))) ^ 2 < 99
  /\ Forall (fun c => 0 < t_integral_spec (kine_y (fst c) * probeE (fst c)))
            (calls (snd (Integral (mkWorld (sample_interaction 5 0.1 0.3 true true) [])))).
Proof.
  assert (Hb : 0 < fBeta) by (cbn [fBeta sample_model]; lra).
  assert (H := t_range_guard (sample_interaction 5 0.1 0.3 true true)).
  cbv zeta in H. destruct (H Hb) as [Hpoint Hgrid]. split.
  - apply Hpoint.
    assert (Hthr := sample_threshold_energy).
    cbn [kine_y probeE sample_interaction Interaction.InitState Interaction.Kine
         InitialState.ProbeE Kinematics.y]. lra.
  - assert (Hs := sqrt_99_bounds).
    eapply Forall_impl; [|apply Hgrid].
    + intros c Hc. apply Hc.
    + cbn [kASmallNum sample_conventions]. lra.
    + cbn [kPionMass sample_conventions]. lra.
    + cbn [probeE sample_interaction Interaction.InitState InitialState.ProbeE]. lra.
    + cbn [probeE sample_interaction Interaction.InitState InitialState.ProbeE
           kPionMass kMuonMass kASmallNum sample_conventions]. lra.
Defined.

(** The boundary of C10: at the pion energy mpi^2/(2 sqrt 99) itself (here
    E = 1 and y = mpi^2/(2 sqrt 99), beta = 7 > 0, an accepted interaction)
    the lower limit tmin equals 99, so the test tmin < 99 fails, the
    t-integral is the guard's 0 and [XSec] returns 0.  For the sample pion
    mass that energy is below 0.001 GeV. *)
Lemma t_range_guard_boundary :
  let i := sample_interaction 1 0.1 (kPionMass ^ 2 / (2 * sqrt 99)) true true in
  let Epi := kine_y i * probeE i in
  let tmin := (kPionMass ^ 2 / (2 * Epi)) ^ 2 in
  0 < fBeta
  /\ kPionMass ^ 2 / (2 * sqrt 99) <= Epi
  /\ ValidProcess i = true
  /\ tmin = 99
  /\ ~ tmin < 99
  /\ t_integral_spec Epi = 0
  /\ XSec_val i kPSxyfE = 0
  /\ kPionMass ^ 2 / (2 * sqrt 99) < 0.001.
Proof.
  intros i Epi tmin.
  assert (HEpi : Epi = kPionMass ^ 2 / (2 * sqrt 99)).
  { unfold Epi, i. cbn [kine_y probeE sample_interaction Interaction.InitState
      Interaction.Kine InitialState.ProbeE Kinematics.y]. ring. }
  assert (Hm : 0 < kPionMass) by (cbn [kPionMass sample_conventions]; lra).
  assert (Htmin : tmin = 99).
  { unfold tmin. rewrite HEpi. exact (tmin_at_threshold Hm). }
  assert (HT : t_integral_spec Epi = 0).
  { apply t_integral_vanished. unfold tmax_spec.
    change (tmin_spec Epi) with tmin. lra. }
  split; [cbn [fBeta sample_model]; lra|].
  split; [rewrite HEpi; lra|].
  split; [reflexivity|].
  split; [exact Htmin|].
  split; [lra|].
  split; [exact HT|].
  split; [|exact sample_threshold_energy].
  rewrite (XSec_val_accepted i kPSxyfE eq_refl).
  destruct (KinePhaseSpace_eq_dec kPSxyfE kPSxyfE) as [_|Hne]; [|congruence].
  change (kine_y i * probeE i) with Epi. rewrite HT. ring.
Qed.

End Samples.

(** ** Further properties of the point evaluator *)

Section PointEvaluationMore.
Context {conv : Conventions} {utils : Utils} {this : ReinDFRPXSec}.

(** The value in the canonical parameterization, accepted or not. *)
Lemma XSec_val_canonical (i : Interaction.t) :
  XSec_val i kPSxyfE
  = if ValidProcess i
    then base_spec (probeE i) (kine_x i) (kine_y i)
         * t_integral_spec (kine_y i * probeE i)
         * (if Interaction.TestBit i kIAssumeFreeNucleon then 1 else INR (NNucl i))
    else 0.
Proof.
  destruct (ValidProcess i) eqn:Hvp.
  - rewrite (XSec_val_accepted i kPSxyfE Hvp).
    destruct (KinePhaseSpace_eq_dec kPSxyfE kPSxyfE) as [_|Hne]; [reflexivity | congruence].
  - apply XSec_val_rejected. exact Hvp.
Qed.

Lemma propagator_le_1 (q : R) : fMa <> 0 -> 0 <= q -> propagator_spec q <= 1.
Proof.
  intros Hma Hq. unfold propagator_spec.
  assert (Ha : 0 < fMa ^ 2).
  { destruct (pow2_ge_0 fMa) as [H|H]; [exact H|].
    exfalso. apply Hma. simpl in H. nra. }
  set (a := fMa ^ 2) in *.
  assert (H0 : 0 < a / (a + q)) by (apply Rdiv_lt_0_compat; lra).
  assert (H1 : a / (a + q) <= 1).
  { apply (Rmult_le_reg_r (a + q)); [lra|].
    unfold Rdiv. rewrite Rmult_assoc, Rinv_l by lra. lra. }
  simpl. rewrite Rmult_1_r. nra.
Qed.

Lemma t_integral_upper (Epi : R) : 0 < fBeta -> t_integral_spec Epi <= / fBeta.
Proof.
  intros Hb. assert (Hinv : 0 < / fBeta) by (apply Rinv_0_lt_compat; exact Hb).
  unfold t_integral_spec. destruct (Rlt_dec _ _) as [_|_]; [|lra].
  assert (Ht : 0 <= tmin_spec Epi) by (unfold tmin_spec; apply pow2_ge_0).
  assert (H1 : exp (- fBeta * tmin_spec Epi) <= 1).
  { rewrite <- exp_0. destruct Ht as [Ht|Ht].
    - left. apply exp_increasing. nra.
    - right. f_equal. rewrite <- Ht. ring. }
  assert (H2 := exp_pos (- fBeta * tmax_spec)).
  unfold Rdiv. rewrite <- (Rmult_1_l (/ fBeta)) at 2.
  apply Rmult_le_compat_r; lra.
Qed.

(** X1.  The value [XSec] returns is decided by four things only: whether
    the validity gate accepts the process, the kinematics, the initial
    state, and the assume-free-nucleon bit (the Jacobian being a function of
    kinematics and initial state).  In particular [ValidKinematics] accepts
    everything and the skip-kinematic-check bit changes nothing, and a
    non-diffractive process with the skip-process-check bit set is
    evaluated exactly like a diffractive one. *)
Theorem XSec_reads_only (i j : Interaction.t) (kps : KinePhaseSpace_t) :
  Jacobian_kinematic ->
  ValidProcess i = ValidProcess j ->
  Interaction.Kine i = Interaction.Kine j ->
  Interaction.InitState i = Interaction.InitState j ->
  Interaction.TestBit i kIAssumeFreeNucleon
  = Interaction.TestBit j kIAssumeFreeNucleon ->
  ValidKinematics i = true
  /\ XSec_val i kps = XSec_val j kps.
Proof.
  intros HJ Hvp HK HI Hfree. split; [apply ValidKinematics_true|].
  destruct (ValidProcess j) eqn:Hj.
  - rewrite (XSec_val_accepted i kps Hvp), (XSec_val_accepted j kps Hj).
    unfold probeE, kine_x, kine_y, NNucl.
    rewrite (HJ i j kPSxyfE kps HK HI), Hfree, HK, HI. reflexivity.
  - rewrite (XSec_val_rejected i kps Hvp), (XSec_val_rejected j kps Hj).
    reflexivity.
Qed.

End PointEvaluationMore.

Section TwoModels.
Context {conv : Conventions} {utils : Utils}.

(** X2.  Outside the canonical parameterization the t-integral is not
    applied: on an accepted interaction the value is the base value times
    the Jacobian times the nuclear factor, so two model instances with the
    same Ma return the same value whatever their slope parameters beta. *)
Theorem XSec_noncanonical_ignores_beta
        (this1 this2 : ReinDFRPXSec) (i : Interaction.t) (kps : KinePhaseSpace_t) :
  kps <> kPSxyfE ->
  @fMa this1 = @fMa this2 ->
  @XSec_val conv utils this1 i kps = @XSec_val conv utils this2 i kps
  /\ (@ValidProcess i = true ->
      @XSec_val conv utils this1 i kps
      = @base_spec conv utils this1 (probeE i) (kine_x i) (kine_y i)
        * Jacobian i kPSxyfE kps
        * (if Interaction.TestBit i kIAssumeFreeNucleon
           then 1 else INR (NNucl i))).
Proof.
  intros Hkps Hma.
  assert (Hform : forall this : ReinDFRPXSec,
             ValidProcess i = true ->
             @XSec_val conv utils this i kps
             = @base_spec conv utils this (probeE i) (kine_x i) (kine_y i)
               * Jacobian i kPSxyfE kps
               * (if Interaction.TestBit i kIAssumeFreeNucleon
                  then 1 else INR (NNucl i))).
  { intros this Hvp. rewrite (XSec_val_accepted i kps Hvp).
    destruct (KinePhaseSpace_eq_dec kps kPSxyfE) as [He|_]; [contradiction | reflexivity]. }
  split; [|apply Hform].
  destruct (ValidProcess i) eqn:Hvp.
  - rewrite (Hform this1 eq_refl), (Hform this2 eq_refl).
    unfold base_spec, propagator_spec. rewrite Hma. reflexivity.
  - rewrite (@XSec_val_rejected conv utils this1 i kps Hvp).
    rewrite (@XSec_val_rejected conv utils this2 i kps Hvp). reflexivity.
Qed.

End TwoModels.

Section PointBounds.
Context {conv : Conventions} {utils : Utils} {this : ReinDFRPXSec}.

(** The part of the base value that does not depend on x. *)
Lemma base_factor_nonneg (E y : R) :
  0 < kPi -> 0 <= kNucleonMass -> 0 <= E -> y <= 1 ->
  0 <= kGF ^ 2 * kNucleonMass / (16 * kPi ^ 3) * E * (0.93 * kPionMass) ^ 2
       * (1 - y) * TotalPionNucleonXSec (y * E) ^ 2.
Proof.
  intros Hpi HM HE Hy.
  assert (Hpre := prefactor_nonneg Hpi HM).
  apply Rmult_le_pos; [|apply pow2_ge_0].
  apply Rmult_le_pos; [|lra].
  apply Rmult_le_pos; [|apply pow2_ge_0].
  apply Rmult_le_pos; assumption.
Qed.

Lemma nuclear_factor_nonneg (i : Interaction.t) :
  0 <= (if Interaction.TestBit i kIAssumeFreeNucleon then 1 else INR (NNucl i)).
Proof.
  destruct (Interaction.TestBit i kIAssumeFreeNucleon); [lra | apply pos_INR].
Qed.

(** Sign of the canonical value, shared by the statements on the integral. *)
Lemma XSec_val_canonical_nonneg (i : Interaction.t) :
  0 < kPi -> 0 <= kNucleonMass -> 0 < fBeta ->
  0 <= probeE i -> kine_y i <= 1 ->
  0 <= XSec_val i kPSxyfE.
Proof.
  intros Hpi HM Hb HE Hy. rewrite XSec_val_canonical.
  destruct (ValidProcess i); [|lra].
  apply Rmult_le_pos; [apply Rmult_le_pos|].
  - apply base_nonneg; assumption.
  - apply t_integral_nonneg. exact Hb.
  - apply nuclear_factor_nonneg.
Qed.

Lemma XSec_val_canonical_upper (i : Interaction.t) :
  0 < kPi -> 0 <= kNucleonMass -> fMa <> 0 -> 0 < fBeta ->
  0 <= kine_x i -> 0 <= kine_y i <= 1 -> 0 <= probeE i ->
  XSec_val i kPSxyfE
  <= kGF ^ 2 * kNucleonMass / (16 * kPi ^ 3) * probeE i
     * (0.93 * kPionMass) ^ 2 * (1 - kine_y i)
     * TotalPionNucleonXSec (kine_y i * probeE i) ^ 2 / fBeta
     * (if Interaction.TestBit i kIAssumeFreeNucleon then 1 else INR (NNucl i)).
Proof.
  intros Hpi HM Hma Hb Hx Hy HE.
  set (E := probeE i) in *. set (x := kine_x i) in *. set (y := kine_y i) in *.
  assert (HF := base_factor_nonneg E y Hpi HM HE (proj2 Hy)).
  set (F := kGF ^ 2 * kNucleonMass / (16 * kPi ^ 3) * E * (0.93 * kPionMass) ^ 2
            * (1 - y) * TotalPionNucleonXSec (y * E) ^ 2) in *.
  assert (Hnf := nuclear_factor_nonneg i).
  set (nf := if Interaction.TestBit i kIAssumeFreeNucleon then 1 else INR (NNucl i)) in *.
  assert (Hinv : 0 < / fBeta) by (apply Rinv_0_lt_compat; exact Hb).
  assert (Hbound : 0 <= F / fBeta * nf).
  { unfold Rdiv. apply Rmult_le_pos; [apply Rmult_le_pos|]; lra. }
  rewrite XSec_val_canonical. fold E x y. fold nf.
  destruct (ValidProcess i); [|exact Hbound].
  rewrite base_spec_split. fold F.
  assert (HQ : 0 <= Q2_spec E x y).
  { unfold Q2_spec. repeat apply Rmult_le_pos; lra. }
  assert (HP1 := propagator_le_1 (Q2_spec E x y) Hma HQ).
  assert (HP0 := propagator_nonneg (Q2_spec E x y)).
  assert (HT1 := t_integral_upper (y * E) Hb).
  assert (HT0 := t_integral_nonneg (y * E) Hb).
  apply Rmult_le_compat_r; [exact Hnf|].
  unfold Rdiv.
  apply Rmult_le_compat; try assumption.
  - apply Rmult_le_pos; assumption.
  - rewrite <- (Rmult_1_r F) at 2. apply Rmult_le_compat_l; assumption.
Qed.

(** X3.  At the kinematic end point y = 1 the value is exactly 0, for every
    requested parameterization, target and setting of the status bits (the
    factor 1 - y).  The hypotheses on E, beta and Ma^2 + Q2 only exclude a
    division by zero. *)
Theorem XSec_zero_at_y_one (i : Interaction.t) (kps : KinePhaseSpace_t) :
  kine_y i = 1 ->
  probeE i <> 0 -> fBeta <> 0 ->
  fMa ^ 2 + 2 * kine_x i * kine_y i * kNucleonMass * probeE i <> 0 ->
  XSec_val i kps = 0.
Proof.
  intros Hy _ _ _. destruct (ValidProcess i) eqn:Hvp.
  - rewrite (XSec_val_accepted i kps Hvp). unfold base_spec. rewrite Hy. ring.
  - apply XSec_val_rejected. exact Hvp.
Qed.

(** X4.  An upper bound in the canonical parameterization: for M, pi and
    beta positive, Ma non-zero, x >= 0, 0 < y <= 1 and E > 0, the value is
    at most GF^2 M/(16 pi^3) * E * (0.93 mpi)^2 * (1-y) * sigma(y E)^2 / beta
    times the nuclear factor, because the propagator is at most 1 and the
    t-integral at most 1/beta. *)
Theorem XSec_canonical_upper_bound (i : Interaction.t) :
  let E := probeE i in
  let y := kine_y i in
  0 < kPi -> 0 < kNucleonMass -> fMa <> 0 -> 0 < fBeta ->
  0 <= kine_x i -> 0 < y <= 1 -> 0 < E ->
  0 <= XSec_val i kPSxyfE
  <= kGF ^ 2 * kNucleonMass / (16 * kPi ^ 3) * E * (0.93 * kPionMass) ^ 2
     * (1 - y) * TotalPionNucleonXSec (y * E) ^ 2 / fBeta
     * (if Interaction.TestBit i kIAssumeFreeNucleon then 1 else INR (NNucl i)).
Proof.
  intros E y Hpi HM Hma Hb Hx Hy HE. split.
  - apply XSec_val_canonical_nonneg; try assumption; fold E; fold y; lra.
  - apply XSec_val_canonical_upper; try assumption; fold E; fold y; lra.
Qed.

End PointBounds.

(** ** Further properties of the integrator *)

Section IntegratorMore.
Context {conv : Conventions} {utils : Utils} {this : ReinDFRPXSec}.

Lemma Rsum_map_ext_in {A : Type} (f g : A -> R) (l : list A) :
  (forall a, In a l -> f a = g a) -> Rsum (map f l) = Rsum (map g l).
Proof.
  intros H. f_equal. apply map_ext_in. exact H.
Qed.

Lemma Rsum_map_scal {A : Type} (c : R) (f : A -> R) (l : list A) :
  Rsum (map (fun a => c * f a) l) = c * Rsum (map f l).
Proof.
  induction l as [|a l IH]; simpl.
  - ring.
  - fold (Rsum (map (fun a => c * f a) l)). fold (Rsum (map f l)).
    rewrite IH. ring.
Qed.

Lemma Rsum_map_bounds {A : Type} (f : A -> R) (lo hi : R) (l : list A) :
  (forall a, In a l -> lo <= f a <= hi) ->
  INR (length l) * lo <= Rsum (map f l) <= INR (length l) * hi.
Proof.
  induction l as [|a l IH]; intros H.
  - simpl. lra.
  - assert (Ha := H a (or_introl eq_refl)).
    assert (Hl := IH (fun b Hb => H b (or_intror Hb))).
    change (length (a :: l)) with (S (length l)). rewrite S_INR.
    cbn [map Rsum fold_right]. fold (Rsum (map f l)). lra.
Qed.

(** The value [Integral] returns, both branches at once. *)
Lemma Integral_fst (w : World) :
  let E := probeE (obj w) in
  fst (Integral w)
  = if Rle_dec (Range1D_t.max (y_range E)) (Range1D_t.min (y_range E))
    then 0
    else Rsum (map (fun p => grid_dx 300 * grid_dy E 300
                             * XSec_val (set_xy (obj w) p) kPSxyfE)
                   (grid_points E 300 300)).
Proof.
  intros E. unfold Integral.
  destruct (Rle_dec _ _) as [Hle|Hgt].
  - rewrite (Integral_grid_empty 300 300 w Hle). reflexivity.
  - apply Rnot_le_lt in Hgt.
    rewrite (Integral_grid_run 300 300 w Hgt). reflexivity.
Qed.

Lemma same_frame_set_xy (i j : Interaction.t) (p : R * R) :
  same_frame i j -> set_xy i p = set_xy j p.
Proof.
  intros (HI & HP & H1 & H2 & H3). unfold set_xy, Interaction.Sety, Interaction.Setx.
  cbn [Interaction.Kine Interaction.InitState Interaction.ProcInfo
       Interaction.SkipProcessChk Interaction.SkipKinematicChk
       Interaction.AssumeFreeNucleon].
  rewrite HI, HP, H1, H2, H3. reflexivity.
Qed.

Lemma same_frame_probeE (i j : Interaction.t) :
  same_frame i j -> probeE i = probeE j.
Proof. intros (HI & _). unfold probeE. rewrite HI. reflexivity. Qed.

Lemma Integral_fst_same_frame (w1 w2 : World) :
  same_frame (obj w1) (obj w2) -> fst (Integral w1) = fst (Integral w2).
Proof.
  intros Hsf. rewrite !Integral_fst. cbv zeta.
  rewrite (same_frame_probeE _ _ Hsf).
  destruct (Rle_dec _ _); [reflexivity|].
  apply Rsum_map_ext_in. intros p _.
  rewrite (same_frame_set_xy _ _ p Hsf). reflexivity.
Qed.

Lemma Integral_obj_cases (w : World) :
  obj (snd (Integral w)) = obj w
  \/ exists p, obj (snd (Integral w)) = set_xy (obj w) p.
Proof.
  unfold Integral. set (E := probeE (obj w)).
  destruct (Rle_dec (Range1D_t.max (y_range E)) (Range1D_t.min (y_range E)))
    as [Hle|Hgt].
  - left. rewrite (Integral_grid_empty 300 300 w Hle). reflexivity.
  - apply Rnot_le_lt in Hgt.
    rewrite (Integral_grid_run 300 300 w Hgt). cbn [snd obj].
    apply fold_set_xy_cases.
Qed.

Lemma Integral_obj_same_frame (w : World) :
  same_frame (obj (snd (Integral w))) (obj w).
Proof.
  destruct (Integral_obj_cases w) as [H|[p H]]; rewrite H; repeat split.
Qed.

(** X5.  The total cross section does not depend on the x and y the caller
    left in the interaction: they are overwritten before the first
    evaluation. *)
Theorem Integral_ignores_incoming_kinematics (w : World) (a b : R) :
  fst (Integral (mkWorld (Interaction.Sety (Interaction.Setx (obj w) a) b) (calls w)))
  = fst (Integral w).
Proof.
  apply Integral_fst_same_frame. cbn [obj]. repeat split.
Qed.

(** X6.  Integrating twice on the same shared interaction returns the same
    total both times, although the first run has moved x and y; and the
    second run leaves the interaction where the first one left it. *)
Theorem Integral_twice (w : World) :
  let w1 := snd (Integral w) in
  fst (Integral w1) = fst (Integral w)
  /\ obj (snd (Integral w1)) = obj w1.
Proof.
  intros w1. split.
  - apply Integral_fst_same_frame. apply Integral_obj_same_frame.
  - unfold w1, Integral. set (E := probeE (obj w)).
    destruct (Rle_dec (Range1D_t.max (y_range E)) (Range1D_t.min (y_range E)))
      as [Hle|Hgt].
    + rewrite (Integral_grid_empty 300 300 w Hle). cbn [snd].
      rewrite (Integral_grid_empty 300 300 w Hle). reflexivity.
    + apply Rnot_le_lt in Hgt.
      rewrite (Integral_grid_run 300 300 w Hgt). cbn [snd].
      set (pts := grid_points (probeE (obj w)) 300 300).
      set (w' := mkWorld (fold_left set_xy pts (obj w)) _).
      assert (HE : probeE (obj w') = probeE (obj w)).
      { apply same_frame_probeE. unfold w'. cbn [obj].
        destruct (fold_set_xy_cases pts (obj w)) as [H|[p H]]; rewrite H;
          repeat split. }
      assert (Hgt' : Range1D_t.min (y_range (probeE (obj w')))
                     < Range1D_t.max (y_range (probeE (obj w'))))
        by (rewrite HE; exact Hgt).
      rewrite (Integral_grid_run 300 300 w' Hgt'). cbn [snd obj].
      rewrite HE. fold pts. unfold w'. cbn [obj].
      destruct (grid_points_last (probeE (obj w)) 299 299) as [l Hl].
      unfold pts. rewrite Hl, !fold_left_app. cbn [fold_left].
      rewrite !set_xy_fold. reflexivity.
Qed.

End IntegratorMore.

Section IntegratorValues.
Context {conv : Conventions} {utils : Utils} {this : ReinDFRPXSec}.

Lemma INR_300 : INR 300 = 300.
Proof. rewrite INR_IZR_INZ. f_equal. Qed.

Lemma grid_steps_area (E : R) :
  INR (300 * 300) * (grid_dx 300 * grid_dy E 300)
  = (300 / 299) ^ 2 * (1 - 2 * kASmallNum)
    * (Range1D_t.max (y_range E) - Range1D_t.min (y_range E)).
Proof.
  rewrite mult_INR, INR_300. unfold grid_dx, grid_dy. rewrite INR_299.
  unfold x_range. cbn [Range1D_t.max Range1D_t.min]. field.
Qed.

Lemma grid_steps_nonneg (E : R) :
  kASmallNum <= 1 / 2 ->
  Range1D_t.min (y_range E) < Range1D_t.max (y_range E) ->
  0 <= grid_dx 300 * grid_dy E 300.
Proof.
  intros He Hne. unfold grid_dx, grid_dy. rewrite INR_299.
  unfold x_range. cbn [Range1D_t.max Range1D_t.min].
  apply Rmult_le_pos.
  - apply Rmult_le_pos; lra.
  - apply Rmult_le_pos; lra.
Qed.

Lemma Rsum_map_zero {A : Type} (l : list A) :
  Rsum (map (fun _ : A => 0) l) = 0.
Proof.
  induction l as [|a l IH]; simpl; [reflexivity|].
  fold (Rsum (map (fun _ : A => 0) l)). rewrite IH. ring.
Qed.

Lemma Rsum_map_nonneg {A : Type} (f : A -> R) (l : list A) :
  (forall a, In a l -> 0 <= f a) -> 0 <= Rsum (map f l).
Proof.
  induction l as [|a l IH]; intros H.
  - simpl. lra.
  - cbn [map Rsum fold_right]. fold (Rsum (map f l)).
    assert (H1 := H a (or_introl eq_refl)).
    assert (H2 := IH (fun b Hb => H b (or_intror Hb))). lra.
Qed.

(** X7.  The validity gate is not consulted before the loops: for a process
    it rejects, [Integral] returns 0, and when the y range is non-empty (for
    an energy E <> 0, so that the range is the one the doubles compute) it
    still evaluates [XSec] at all 300 * 300 grid points to get there. *)
Theorem Integral_rejected_process (w : World) :
  let E := probeE (obj w) in
  ValidProcess (obj w) = false ->
  fst (Integral w) = 0
  /\ (E <> 0 ->
      Range1D_t.min (y_range E) < Range1D_t.max (y_range E) ->
      length (calls (snd (Integral w))) = (length (calls w) + 300 * 300)%nat).
Proof.
  intros E Hvp. split.
  - rewrite Integral_fst. fold E. destruct (Rle_dec _ _); [reflexivity|].
    rewrite (Rsum_map_ext_in _ (fun _ => grid_dx 300 * grid_dy E 300 * 0)).
    + rewrite Rsum_map_scal, Rsum_map_zero. ring.
    + intros p _. rewrite (XSec_val_rejected (set_xy (obj w) p) kPSxyfE Hvp).
      reflexivity.
  - intros _ Hne. unfold Integral.
    rewrite (Integral_grid_run 300 300 w Hne). cbn [snd calls].
    rewrite length_app, length_map, length_grid_points. reflexivity.
Qed.

(** X8.  Nuclear scaling of the total: the integral with the
    assume-free-nucleon bit cleared is the number of struck-type nucleons
    times the integral with the bit set. *)
Theorem Integral_nuclear_scaling (i : Interaction.t)
        (l : list (Interaction.t * KinePhaseSpace_t)) :
  fst (Integral (mkWorld (Interaction.SetBit i kIAssumeFreeNucleon false) l))
  = INR (NNucl i)
    * fst (Integral (mkWorld (Interaction.SetBit i kIAssumeFreeNucleon true) l)).
Proof.
  rewrite !Integral_fst. cbv zeta. cbn [obj].
  change (probeE (Interaction.SetBit i kIAssumeFreeNucleon false)) with (probeE i).
  change (probeE (Interaction.SetBit i kIAssumeFreeNucleon true)) with (probeE i).
  destruct (Rle_dec _ _); [ring|].
  rewrite <- Rsum_map_scal. apply Rsum_map_ext_in. intros p _.
  rewrite !XSec_val_canonical.
  set (i0 := set_xy (Interaction.SetBit i kIAssumeFreeNucleon false) p).
  set (i1 := set_xy (Interaction.SetBit i kIAssumeFreeNucleon true) p).
  change (ValidProcess i0) with (ValidProcess i1).
  change (Interaction.TestBit i0 kIAssumeFreeNucleon) with false.
  change (Interaction.TestBit i1 kIAssumeFreeNucleon) with true.
  change (NNucl i0) with (NNucl i).
  change (probeE i0) with (probeE i1).
  change (kine_x i0) with (kine_x i1).
  change (kine_y i0) with (kine_y i1).
  destruct (ValidProcess i1); ring.
Qed.

(** X9.  For a positive energy the total is never negative (constants
    0 < eps < 1/2, mpi > 0, mmu >= 0, M > 0, pi > 0, and beta > 0). *)
Theorem Integral_nonneg (w : World) :
  0 < kASmallNum < 1 / 2 -> 0 < kPionMass -> 0 <= kMuonMass ->
  0 < kNucleonMass -> 0 < kPi -> 0 < fBeta ->
  0 < probeE (obj w) ->
  0 <= fst (Integral w).
Proof.
  intros He Hpi Hmu HM Hkpi Hb HE. rewrite Integral_fst. cbv zeta.
  set (E := probeE (obj w)) in *.
  destruct (Rle_dec _ _) as [_|Hgt]; [lra|].
  apply Rnot_le_lt in Hgt.
  assert (Hw := grid_steps_nonneg E (Rlt_le _ _ (proj2 He)) Hgt).
  rewrite Rsum_map_scal.
  apply Rmult_le_pos; [exact Hw|].
  apply Rsum_map_nonneg. intros p Hp. apply in_grid_points in Hp.
  destruct Hp as [ix [iy [Hix [Hiy Hp]]]]. subst p.
  destruct (grid_point_inside E ix iy He Hpi Hmu HE Hgt Hix Hiy)
    as [_ [Hy [Hpe Hme]]].
  apply XSec_val_canonical_nonneg; try assumption; try lra.
  - change (probeE (set_xy (obj w) (grid_x 300 ix, grid_y E 300 iy))) with E. lra.
  - change (kine_y (set_xy (obj w) (grid_x 300 ix, grid_y E 300 iy)))
      with (grid_y E 300 iy). lra.
Qed.

(** X10.  Riemann-sum bounds.  When the y range is non-empty (eps <= 1/2,
    E <> 0) and the canonical point value lies between [lo] and [hi] at
    every grid point, the total lies between [lo * W] and [hi * W] with
    W = (300/299)^2 * (1 - 2 eps) * (y.max - y.min): each of the 300 * 300
    points, end points included, carries the full weight dx dy, so the
    weights add up to (300/299)^2 times the area of the rectangle. *)
Theorem Integral_riemann_bounds (w : World) (lo hi : R) :
  let i := obj w in
  let E := probeE i in
  let ymin := kPionMass / E + kASmallNum in
  let ymax := 1 - kMuonMass / E - kASmallNum in
  let W := (300 / 299) ^ 2 * (1 - 2 * kASmallNum) * (ymax - ymin) in
  E <> 0 ->
  kASmallNum <= 1 / 2 ->
  ymin < ymax ->
  (forall ix iy, (ix < 300)%nat -> (iy < 300)%nat ->
     lo <= XSec_val (set_xy i (grid_x 300 ix, grid_y E 300 iy)) kPSxyfE <= hi) ->
  lo * W <= fst (Integral w) <= hi * W.
Proof.
  intros i E ymin ymax W _ He Hne Hb.
  change (Range1D_t.min (y_range E) < Range1D_t.max (y_range E)) in Hne.
  rewrite Integral_fst. cbv zeta. fold i. fold E.
  destruct (Rle_dec _ _) as [Hle|_]; [lra|].
  assert (Hw := grid_steps_nonneg E He Hne).
  assert (HW : W = INR (300 * 300) * (grid_dx 300 * grid_dy E 300))
    by (symmetry; apply grid_steps_area).
  rewrite Rsum_map_scal.
  assert (Hsum := Rsum_map_bounds
            (fun p => XSec_val (set_xy i p) kPSxyfE) lo hi
            (grid_points E 300 300)).
  rewrite length_grid_points in Hsum.
  assert (Hin : forall p, In p (grid_points E 300 300) ->
                          lo <= XSec_val (set_xy i p) kPSxyfE <= hi).
  { intros p Hp. apply in_grid_points in Hp.
    destruct Hp as [ix [iy [Hix [Hiy Hp]]]]. subst p. apply Hb; assumption. }
  specialize (Hsum Hin). rewrite HW.
  set (S := Rsum (map (fun p => XSec_val (set_xy i p) kPSxyfE)
                      (grid_points E 300 300))) in *.
  set (n := INR (300 * 300)) in *. set (d := grid_dx 300 * grid_dy E 300) in *.
  split; nra.
Qed.

End IntegratorValues.

Section TwoUtils.
Context {conv : Conventions} {this : ReinDFRPXSec}.

(** X11.  The integrator never consults the phase-space transform: two sets
    of utilities with the same hadronic cross-section table and the same
    [IsProton] give the same run of [Integral] (value, final interaction
    and evaluations), whatever their Jacobians. *)
Theorem Integral_ignores_Jacobian (u1 u2 : Utils) (w : World) :
  (forall e, @TotalPionNucleonXSec u1 e = @TotalPionNucleonXSec u2 e) ->
  (forall c, @IsProton u1 c = @IsProton u2 c) ->
  @Integral conv u1 this w = @Integral conv u2 this w.
Proof.
  intros Hs Hp.
  assert (Hval : forall i, @XSec_val conv u1 this i kPSxyfE
                           = @XSec_val conv u2 this i kPSxyfE).
  { intros i. rewrite (@XSec_val_canonical conv u1 this i).
    rewrite (@XSec_val_canonical conv u2 this i).
    unfold base_spec, NNucl. rewrite Hs, Hp. reflexivity. }
  unfold Integral. set (E := probeE (obj w)).
  destruct (Rle_dec (Range1D_t.max (y_range E)) (Range1D_t.min (y_range E)))
    as [Hle|Hgt].
  - rewrite (@Integral_grid_empty conv u1 this 300 300 w Hle).
    rewrite (@Integral_grid_empty conv u2 this 300 300 w Hle). reflexivity.
  - apply Rnot_le_lt in Hgt.
    rewrite (@Integral_grid_run conv u1 this 300 300 w Hgt).
    rewrite (@Integral_grid_run conv u2 this 300 300 w Hgt).
    cbv zeta. fold E.
    rewrite (Rsum_map_ext_in
               (fun p => grid_dx 300 * grid_dy E 300
                         * @XSec_val conv u1 this (set_xy (obj w) p) kPSxyfE)
               (fun p => grid_dx 300 * grid_dy E 300
                         * @XSec_val conv u2 this (set_xy (obj w) p) kPSxyfE)).
    + reflexivity.
    + intros p _. rewrite Hval. reflexivity.
Qed.

End TwoUtils.

(** ** The validation program: frames *)

Section Frames2.

Lemma DrawFrame_ranges (gr0 gr1 : option TGraph.t) :
  let x0 := match gr0 with
            | Some g0 => TAxis.GetXmin (TGraph.GetXaxis g0) | None => 1E-5 end in
  let X0 := match gr0 with
            | Some g0 => TAxis.GetXmax (TGraph.GetXaxis g0) | None => 1 end in
  let y0 := match gr0 with
            | Some g0 => TAxis.GetXmin (TGraph.GetYaxis g0) | None => 1E-5 end in
  let Y0 := match gr0 with
            | Some g0 => TAxis.GetXmax (TGraph.GetYaxis g0) | None => 1 end in
  let x1 := match gr1 with
            | Some g1 => Rmin x0 (TAxis.GetXmin (TGraph.GetXaxis g1)) | None => x0 end in
  let X1 := match gr1 with
            | Some g1 => Rmax X0 (TAxis.GetXmax (TGraph.GetXaxis g1)) | None => X0 end in
  let y1 := match gr1 with
            | Some g1 => Rmin y0 (TAxis.GetXmin (TGraph.GetYaxis g1)) | None => y0 end in
  let Y1 := match gr1 with
            | Some g1 => Rmax Y0 (TAxis.GetXmax (TGraph.GetYaxis g1)) | None => Y0 end in
  TH1F.xmin (DrawFrame gr0 gr1) = Rmax 0.1 (x1 * 0.5)
  /\ TH1F.xmax (DrawFrame gr0 gr1) = X1 * 1.5
  /\ TH1F.ymin (DrawFrame gr0 gr1) = y1 * 0.5
  /\ TH1F.ymax (DrawFrame gr0 gr1) = Y1 * 1.5.
Proof.
  destruct gr0 as [g0|], gr1 as [g1|]; repeat split.
Qed.

(** X12.  The frame never starts below E = 0.1: its lower x edge is at
    least 0.1 for all arguments, and it is exactly 0.1 whenever the first
    graph is null, whatever the second graph is (the default 1E-5 then
    takes part in the minimum). *)
Theorem DrawFrame_xmin_floor (gr0 gr1 : option TGraph.t) :
  0.1 <= TH1F.xmin (DrawFrame gr0 gr1)
  /\ TH1F.xmin (DrawFrame None gr1) = 0.1.
Proof.
  split.
  - destruct (DrawFrame_ranges gr0 gr1) as [Hx _]. rewrite Hx. apply Rmax_l.
  - destruct (DrawFrame_ranges None gr1) as [Hx _]. rewrite Hx.
    cbv zeta. apply Rmax_left.
    destruct gr1 as [g1|].
    + assert (H := Rmin_l 1E-5 (TAxis.GetXmin (TGraph.GetXaxis g1))). lra.
    + lra.
Qed.

(** X13.  When the first graph is present and every graph given has
    energies from 0.1 up and non-negative cross sections, the frame
    contains each of the graphs. *)
Theorem DrawFrame_encloses (g0 : TGraph.t) (gr1 : option TGraph.t) :
  plottable g0 ->
  (forall g1, gr1 = Some g1 -> plottable g1) ->
  graph_in_frame g0 (DrawFrame (Some g0) gr1)
  /\ (forall g1, gr1 = Some g1 -> graph_in_frame g1 (DrawFrame (Some g0) gr1)).
Proof.
  intros (Hx0 & HX0 & Hy0 & HY0) H1.
  destruct (DrawFrame_ranges (Some g0) gr1) as (Hx & HX & Hy & HY).
  cbv zeta in Hx, HX, Hy, HY.
  unfold graph_in_frame. rewrite Hx, HX, Hy, HY. clear Hx HX Hy HY.
  destruct gr1 as [g1|].
  - destruct (H1 g1 eq_refl) as (Hx1 & HX1 & Hy1 & HY1).
    set (a0 := TAxis.GetXmin (TGraph.GetXaxis g0)) in *.
    set (b0 := TAxis.GetXmax (TGraph.GetXaxis g0)) in *.
    set (c0 := TAxis.GetXmin (TGraph.GetYaxis g0)) in *.
    set (d0 := TAxis.GetXmax (TGraph.GetYaxis g0)) in *.
    set (a1 := TAxis.GetXmin (TGraph.GetXaxis g1)) in *.
    set (b1 := TAxis.GetXmax (TGraph.GetXaxis g1)) in *.
    set (c1 := TAxis.GetXmin (TGraph.GetYaxis g1)) in *.
    set (d1 := TAxis.GetXmax (TGraph.GetYaxis g1)) in *.
    assert (Ha : Rmax 0.1 (Rmin a0 a1 * 0.5) <= Rmin a0 a1).
    { apply Rmax_lub; unfold Rmin; destruct (Rle_dec a0 a1); lra. }
    assert (Hal := Rmin_l a0 a1). assert (Har := Rmin_r a0 a1).
    assert (Hbl := Rmax_l b0 b1). assert (Hbr := Rmax_r b0 b1).
    assert (Hcl := Rmin_l c0 c1). assert (Hcr := Rmin_r c0 c1).
    assert (Hdl := Rmax_l d0 d1). assert (Hdr := Rmax_r d0 d1).
    assert (Hc : 0 <= Rmin c0 c1) by (unfold Rmin; destruct (Rle_dec c0 c1); lra).
    split.
    + repeat split; lra.
    + intros g Hg. injection Hg as <-. fold a1 b1 c1 d1. repeat split; lra.
  - split.
    + assert (Ha : Rmax 0.1 (TAxis.GetXmin (TGraph.GetXaxis g0) * 0.5)
                   <= TAxis.GetXmin (TGraph.GetXaxis g0))
        by (apply Rmax_lub; lra).
      repeat split; lra.
    + intros g Hg. discriminate Hg.
Qed.

End Frames2.

(** ** The validation program: command line, connection and data *)

Section ProgramFacts.
Context {collab : Collaborators}.

Lemma kNuXSecKeyList_length : length kNuXSecKeyList = 19%nat.
Proof. reflexivity. Qed.

Lemma kNuXSecERange_length : length kNuXSecERange = 19%nat.
Proof. reflexivity. Qed.

Lemma array_at_in_range {A : Type} (table : list A) (iset : BinNums.Z) :
  (0 <= iset < Z.of_nat (length table))%Z ->
  exists a, array_at table iset = Some a.
Proof.
  intros Hr. unfold array_at.
  destruct (Z.ltb_spec iset 0) as [Hneg|_]; [lia|].
  destruct (nth_error table (Z.to_nat iset)) as [a|] eqn:Hn.
  - exists a. reflexivity.
  - apply nth_error_None in Hn. lia.
Qed.

Lemma array_at_out_of_range {A : Type} (table : list A) (iset : BinNums.Z) :
  ~ (0 <= iset < Z.of_nat (length table))%Z ->
  array_at table iset = None.
Proof.
  intros Hr. unfold array_at.
  destruct (Z.ltb_spec iset 0) as [Hneg|Hpos]; [reflexivity|].
  apply nth_error_None. lia.
Qed.

(** The shape of a normal return of [GetCommandLineArgs]. *)
Lemma GetCommandLineArgs_return (argv : list String.string) (g g' : Globals) :
  GetCommandLineArgs argv g = Return g' ->
  gCmpWithData g' = negb (option_missing argv "u"%char)
                    && negb (option_missing argv "p"%char)
  /\ gOptDbURL g'
     = match CmdLineArgAsString argv "h"%char with
       | Returned url => url
       | Raised e =>
           if CmdLineArgParserException.ArgumentFound e
           then gOptDbURL g else kDefDbURL
       end
  /\ gDBI g' = gDBI g.
Proof.
  unfold GetCommandLineArgs, option_missing.
  destruct (CmdLineArgAsString argv "g"%char) as [inputs|eg].
  - destruct (LoadFromFile (gOptGenieInputs g) inputs) as [ok loaded].
    destruct ok; cbn [negb]; [|discriminate].
    intros H. injection H as <-.
    destruct (CmdLineArgAsString argv "h"%char) as [url|[fh]];
      destruct (CmdLineArgAsString argv "u"%char) as [user|[fu]];
      destruct (CmdLineArgAsString argv "p"%char) as [pw|[fp]];
      try destruct fh; try destruct fu; try destruct fp;
      repeat split.
  - destruct eg as [fg].
    assert (Hg : (if negb fg then Return g else Return g) = Return g)
      by (destruct fg; reflexivity).
    cbn [CmdLineArgParserException.ArgumentFound]. rewrite Hg.
    intros H. injection H as <-.
    destruct (CmdLineArgAsString argv "h"%char) as [url|[fh]];
      destruct (CmdLineArgAsString argv "u"%char) as [user|[fu]];
      destruct (CmdLineArgAsString argv "p"%char) as [pw|[fp]];
      try destruct fh; try destruct fu; try destruct fp;
      repeat split.
Qed.

(** X14.  [GetCommandLineArgs] ends the program, with status 1, exactly
    when option -g is given and the named input file cannot be loaded; in
    every other case it returns.  A missing -g is not an error. *)
Theorem GetCommandLineArgs_exit (argv : list String.string) (g : Globals) :
  (GetCommandLineArgs argv g = Exit 1%Z
   <-> exists inputs,
         CmdLineArgAsString argv "g"%char = Returned inputs
         /\ fst (LoadFromFile (gOptGenieInputs g) inputs) = false)
  /\ (GetCommandLineArgs argv g = Exit 1%Z
      \/ exists g', GetCommandLineArgs argv g = Return g').
Proof.
  unfold GetCommandLineArgs.
  destruct (CmdLineArgAsString argv "g"%char) as [inputs|[fg]].
  - destruct (LoadFromFile (gOptGenieInputs g) inputs) as [ok loaded] eqn:Hl.
    destruct ok; cbn [negb].
    + split.
      * split; [discriminate|].
        intros [inputs' [Heq Hf]]. injection Heq as <-.
        rewrite Hl in Hf. discriminate Hf.
      * right. eexists. reflexivity.
    + split.
      * split; [|reflexivity]. intros _. exists inputs.
        split; [reflexivity|]. rewrite Hl. reflexivity.
      * left. reflexivity.
  - cbn [CmdLineArgParserException.ArgumentFound].
    assert (Hg : (if negb fg then Return g else Return g) = Return g)
      by (destruct fg; reflexivity).
    rewrite Hg. split.
    + split; [discriminate|]. intros [inputs [Heq _]]. discriminate Heq.
    + right. eexists. reflexivity.
Qed.

(** X15.  After a normal return, comparison with data is on exactly when
    neither -u nor -p was reported missing, whatever the flag was before;
    the URL is the -h argument, or the default mysql://localhost/NuScat when
    -h is missing, or left as it was when -h was found but could not be
    read; and no data-base interface has been created. *)
Theorem GetCommandLineArgs_settings (argv : list String.string) (g g' : Globals) :
  GetCommandLineArgs argv g = Return g' ->
  gCmpWithData g' = negb (option_missing argv "u"%char)
                    && negb (option_missing argv "p"%char)
  /\ gOptDbURL g'
     = match CmdLineArgAsString argv "h"%char with
       | Returned url => url
       | Raised e =>
           if CmdLineArgParserException.ArgumentFound e
           then gOptDbURL g else kDefDbURL
       end
  /\ gDBI g' = gDBI g.
Proof. apply GetCommandLineArgs_return. Qed.

(** X16.  Without credentials there is no data base: if -u or -p is
    missing, then after [GetCommandLineArgs] the call [Connect] reports
    success without creating a data-base interface, and [Data] returns a
    null table for every data set index, in range or not. *)
Theorem no_credentials_no_database (argv : list String.string) (g g' : Globals) :
  GetCommandLineArgs argv g = Return g' ->
  option_missing argv "u"%char = true \/ option_missing argv "p"%char = true ->
  Connect g' = (true, g')
  /\ forall iset, Data iset g' = Return None.
Proof.
  intros Hret Hmiss.
  destruct (GetCommandLineArgs_return argv g g' Hret) as [Hcmp _].
  assert (Hoff : gCmpWithData g' = false).
  { rewrite Hcmp. destruct Hmiss as [H|H]; rewrite H.
    - reflexivity.
    - apply andb_false_r. }
  split.
  - unfold Connect. rewrite Hoff. reflexivity.
  - intros iset. unfold Data. rewrite Hoff. reflexivity.
Qed.

(** X17.  [Connect] and [Data].  If [Connect] reports failure, comparison
    with data was on and the globals are unchanged.  If it reports success,
    then for every data set index 0 <= iset < 19 the call [Data] neither
    dereferences a null [gDBI] nor leaves the tables: it returns (a null
    table when comparison with data is off) or fails its assertion.  With
    comparison on, an index outside 0..18 reads past the tables. *)
Theorem Connect_then_Data (g : Globals) (iset : BinNums.Z) :
  (fst (Connect g) = false ->
   snd (Connect g) = g /\ gCmpWithData g = true)
  /\ (fst (Connect g) = true ->
      (0 <= iset < kNuXSecDataSets)%Z ->
      Data iset (snd (Connect g)) = AssertionFailed
      \/ exists t, Data iset (snd (Connect g)) = Return t)
  /\ (gCmpWithData g = true ->
      ~ (0 <= iset < kNuXSecDataSets)%Z ->
      Data iset g = OutOfRange).
Proof.
  split; [|split].
  - unfold Connect. destruct (gCmpWithData g); cbn [negb fst snd].
    + destruct (TSQLServer_Connect _ _ _) as [server|]; cbn [fst snd].
      * destruct (IsConnected server); cbn [negb fst snd];
          [discriminate | intros _; split; reflexivity].
      * intros _. split; reflexivity.
    + discriminate.
  - intros Hok Hr.
    destruct (array_at_in_range kNuXSecKeyList iset) as [keys Hk].
    { rewrite kNuXSecKeyList_length. unfold kNuXSecDataSets in Hr. lia. }
    destruct (array_at_in_range kNuXSecERange iset) as [[emin emax] He].
    { rewrite kNuXSecERange_length. unfold kNuXSecDataSets in Hr. lia. }
    revert Hok. unfold Connect.
    destruct (gCmpWithData g) eqn:Hcmp; cbn [negb fst snd].
    + destruct (TSQLServer_Connect _ _ _) as [server|]; cbn [fst snd];
        [|discriminate].
      destruct (IsConnected server); cbn [negb fst snd]; [|discriminate].
      intros _. unfold Data. cbn [gCmpWithData gDBI negb]. rewrite Hk, He.
      destruct (FillTable server new_DBT (FormQuery keys emin emax)) as [ok t].
      destruct ok; [right; eexists; reflexivity | left; reflexivity].
    + intros _. right. exists None. unfold Data. rewrite Hcmp. reflexivity.
  - intros Hcmp Hr. unfold Data. rewrite Hcmp. cbn [negb].
    rewrite (array_at_out_of_range kNuXSecKeyList iset).
    + reflexivity.
    + rewrite kNuXSecKeyList_length. unfold kNuXSecDataSets in Hr. lia.
Qed.

End ProgramFacts.

(** ** The further statements at the sample configuration *)

Section MoreSamples.
#[local] Existing Instance sample_conventions.
#[local] Existing Instance sample_utils.
#[local] Existing Instance sample_model.

Lemma sample_Jacobian_kinematic : Jacobian_kinematic.
Proof.
  intros j1 j2 from to HK HI. cbn [Jacobian sample_utils].
  rewrite HK, HI. reflexivity.
Qed.

Lemma sample_y_range :
  Range1D_t.min (y_range 5) < Range1D_t.max (y_range 5).
Proof.
  cbn [y_range Range1D_t.min Range1D_t.max kPionMass kMuonMass kASmallNum
       sample_conventions]. lra.
Qed.

(** A non-diffractive process with the skip-process-check bit set and the
    skip-kinematic-check bit set, against the plain diffractive one. *)
Lemma XSec_reads_only_witness :
  XSec_val (Interaction.mk (Kinematics.mk 0.1 0.3)
                           (InitialState.mk 5 sample_target)
                           (ProcessInfo.mk false) true true false) kPSxytfE
  = XSec_val (sample_interaction 5 0.1 0.3 true false) kPSxytfE.
Proof.
  apply (XSec_reads_only
           (Interaction.mk (Kinematics.mk 0.1 0.3)
                           (InitialState.mk 5 sample_target)
                           (ProcessInfo.mk false) true true false)
           (sample_interaction 5 0.1 0.3 true false) kPSxytfE);
    try reflexivity.
  exact sample_Jacobian_kinematic.
Defined.

Lemma XSec_noncanonical_ignores_beta_witness :
  @XSec_val sample_conventions sample_utils {| fMa := 1.1; fBeta := 7 |}
            (sample_interaction 5 0.1 0.3 true true) kPSxytfE
  = @XSec_val sample_conventions sample_utils {| fMa := 1.1; fBeta := 3 |}
              (sample_interaction 5 0.1 0.3 true true) kPSxytfE.
Proof.
  apply (@XSec_noncanonical_ignores_beta sample_conventions sample_utils
           {| fMa := 1.1; fBeta := 7 |} {| fMa := 1.1; fBeta := 3 |}
           (sample_interaction 5 0.1 0.3 true true) kPSxytfE).
  - discriminate.
  - reflexivity.
Defined.

Lemma XSec_zero_at_y_one_witness :
  XSec_val (sample_interaction 5 0.1 1 true false) kPSxyfE = 0.
Proof.
  apply (XSec_zero_at_y_one (sample_interaction 5 0.1 1 true false) kPSxyfE);
    cbn [kine_x kine_y probeE sample_interaction Interaction.Kine
         Interaction.InitState InitialState.ProbeE Kinematics.x Kinematics.y
         fBeta fMa sample_model kNucleonMass sample_conventions];
    try reflexivity; lra.
Defined.

Lemma XSec_canonical_upper_bound_witness :
  0 <= XSec_val (sample_interaction 5 0.1 0.3 true true) kPSxyfE
  <= kGF ^ 2 * kNucleonMass / (16 * kPi ^ 3) * 5 * (0.93 * kPionMass) ^ 2
     * (1 - 0.3) * (25 + 0.3 * 5) ^ 2 / 7 * 1.
Proof.
  refine (XSec_canonical_upper_bound (sample_interaction 5 0.1 0.3 true true)
            _ _ _ _ _ _ _);
    cbn [kine_x kine_y probeE sample_interaction Interaction.Kine
         Interaction.InitState InitialState.ProbeE Kinematics.x Kinematics.y
         fBeta fMa sample_model kPi kNucleonMass sample_conventions];
    lra.
Defined.

Lemma Integral_rejected_process_witness :
  fst (Integral (mkWorld (sample_interaction 5 0.1 0.3 false true) [])) = 0
  /\ length (calls (snd (Integral (mkWorld (sample_interaction 5 0.1 0.3 false true) []))))
     = (0 + 300 * 300)%nat.
Proof.
  destruct (Integral_rejected_process
              (mkWorld (sample_interaction 5 0.1 0.3 false true) []) eq_refl)
    as [H0 Hlen].
  split; [exact H0|]. apply Hlen.
  - cbn [obj probeE sample_interaction Interaction.InitState InitialState.ProbeE].
    lra.
  - exact sample_y_range.
Defined.

Lemma Integral_nonneg_witness :
  0 <= fst (Integral (mkWorld (sample_interaction 5 0.1 0.3 true false) [])).
Proof.
  apply (Integral_nonneg (mkWorld (sample_interaction 5 0.1 0.3 true false) []));
    cbn [obj probeE sample_interaction Interaction.InitState InitialState.ProbeE
         kASmallNum kPionMass kMuonMass kNucleonMass kPi sample_conventions
         fBeta sample_model];
    lra.
Defined.

(** Bounds of the sample point value over the grid at E = 5 GeV. *)
Lemma sample_point_bounds (ix iy : nat) :
  (ix < 300)%nat -> (iy < 300)%nat ->
  0 <= XSec_val (set_xy (sample_interaction 5 0.1 0.3 true true)
                        (grid_x 300 ix, grid_y 5 300 iy)) kPSxyfE
  <= kGF ^ 2 * kNucleonMass / (16 * kPi ^ 3) * 5 * (0.93 * kPionMass) ^ 2
     * 900 / 7.
Proof.
  intros Hix Hiy.
  set (i := set_xy (sample_interaction 5 0.1 0.3 true true)
                   (grid_x 300 ix, grid_y 5 300 iy)).
  assert (He : 0 < kASmallNum < 1 / 2) by (cbn [kASmallNum sample_conventions]; lra).
  assert (Hpi : 0 < kPionMass) by (cbn [kPionMass sample_conventions]; lra).
  assert (Hmu : 0 <= kMuonMass) by (cbn [kMuonMass sample_conventions]; lra).
  assert (HE : 0 < 5) by lra.
  destruct (grid_point_inside 5 ix iy He Hpi Hmu HE sample_y_range Hix Hiy)
    as [Hx [Hy [Hpe Hme]]].
  assert (HkPi : 0 < kPi) by (cbn [kPi sample_conventions]; lra).
  assert (HM : 0 <= kNucleonMass) by (cbn [kNucleonMass sample_conventions]; lra).
  assert (Hma : fMa <> 0) by (cbn [fMa sample_model]; lra).
  assert (Hb : 0 < fBeta) by (cbn [fBeta sample_model]; lra).
  assert (Hy01 : 0 <= grid_y 5 300 iy <= 1) by lra.
  split.
  - apply XSec_val_canonical_nonneg; try assumption.
    + change (probeE i) with 5. lra.
    + change (kine_y i) with (grid_y 5 300 iy). lra.
  - assert (Hup := XSec_val_canonical_upper i HkPi HM Hma Hb).
    change (kine_x i) with (grid_x 300 ix) in Hup.
    change (kine_y i) with (grid_y 5 300 iy) in Hup.
    change (probeE i) with 5 in Hup.
    change (Interaction.TestBit i kIAssumeFreeNucleon) with true in Hup.
    cbn [TotalPionNucleonXSec sample_utils fBeta sample_model] in Hup.
    assert (Hx0 : 0 <= grid_x 300 ix) by lra.
    specialize (Hup Hx0 Hy01 (Rlt_le _ _ HE)).
    eapply Rle_trans; [exact Hup|].
    assert (HK : 0 <= kGF ^ 2 * kNucleonMass / (16 * kPi ^ 3) * 5
                      * (0.93 * kPionMass) ^ 2).
    { apply Rmult_le_pos; [|apply pow2_ge_0].
      apply Rmult_le_pos; [|lra]. apply prefactor_nonneg; assumption. }
    set (K := kGF ^ 2 * kNucleonMass / (16 * kPi ^ 3) * 5
              * (0.93 * kPionMass) ^ 2) in *.
    set (y := grid_y 5 300 iy) in *.
    assert (Hs : (1 - y) * (25 + y * 5) ^ 2 <= 900).
    { assert (H1 : 0 <= (25 + y * 5) ^ 2 <= 900) by (simpl; nra).
      nra. }
    apply (Rmult_le_compat_l K) in Hs; [|exact HK].
    lra.
Qed.

Lemma Integral_riemann_bounds_witness :
  0 * ((300 / 299) ^ 2 * (1 - 2 * 1e-6)
       * (1 - 0.10566 / 5 - 1e-6 - (0.13957 / 5 + 1e-6)))
  <= fst (Integral (mkWorld (sample_interaction 5 0.1 0.3 true true) []))
  <= kGF ^ 2 * kNucleonMass / (16 * kPi ^ 3) * 5 * (0.93 * kPionMass) ^ 2
     * 900 / 7
     * ((300 / 299) ^ 2 * (1 - 2 * 1e-6)
        * (1 - 0.10566 / 5 - 1e-6 - (0.13957 / 5 + 1e-6))).
Proof.
  refine (Integral_riemann_bounds
            (mkWorld (sample_interaction 5 0.1 0.3 true true) []) 0
            (kGF ^ 2 * kNucleonMass / (16 * kPi ^ 3) * 5
             * (0.93 * kPionMass) ^ 2 * 900 / 7) _ _ _ _).
  - cbn [obj probeE sample_interaction Interaction.InitState InitialState.ProbeE].
    lra.
  - cbn [kASmallNum sample_conventions]. lra.
  - exact sample_y_range.
  - exact sample_point_bounds.
Defined.

(** Two sets of utilities that differ in the Jacobian only. *)
Lemma Integral_ignores_Jacobian_witness :
  @Integral sample_conventions sample_utils sample_model
            (mkWorld (sample_interaction 5 0.1 0.3 true true) [])
  = @Integral sample_conventions
              {| TotalPionNucleonXSec := fun Epi => 25 + Epi;
                 Jacobian := fun _ _ _ => 1;
                 IsProton := fun pdgc => Z.eqb pdgc 2212 |}
              sample_model
              (mkWorld (sample_interaction 5 0.1 0.3 true true) []).
Proof.
  apply (@Integral_ignores_Jacobian sample_conventions sample_model
           sample_utils
           {| TotalPionNucleonXSec := fun Epi => 25 + Epi;
              Jacobian := fun _ _ _ => 1;
              IsProton := fun pdgc => Z.eqb pdgc 2212 |}).
  - intros e. reflexivity.
  - intros c. reflexivity.
Defined.

Definition sample_graph (xlo xhi ylo yhi : R) : TGraph.t :=
  TGraph.mk (TAxis.mk xlo xhi) (TAxis.mk ylo yhi).

Lemma DrawFrame_encloses_witness :
  graph_in_frame (sample_graph 0.5 30 0.1 2)
                 (DrawFrame (Some (sample_graph 0.5 30 0.1 2))
                            (Some (sample_graph 0.2 100 0.05 1.5)))
  /\ graph_in_frame (sample_graph 0.2 100 0.05 1.5)
                    (DrawFrame (Some (sample_graph 0.5 30 0.1 2))
                               (Some (sample_graph 0.2 100 0.05 1.5))).
Proof.
  destruct (DrawFrame_encloses (sample_graph 0.5 30 0.1 2)
                               (Some (sample_graph 0.2 100 0.05 1.5)))
    as [H0 H1].
  - unfold plottable. cbn. lra.
  - intros g Hg. injection Hg as <-. unfold plottable. cbn. lra.
  - split; [exact H0 | apply H1; reflexivity].
Defined.

End MoreSamples.

Section ProgramSamples.
#[local] Existing Instance sample_collaborators.

(** Host and user given, password not: comparison with data is off. *)
Lemma GetCommandLineArgs_settings_witness :
  let argv := ["-h"%string; "mysql://db/NuScat"%string; "-u"%string; "me"%string] in
  let g' := mkGlobals "mysql://db/NuScat"%string "me"%string ""%string [] false None in
  GetCommandLineArgs argv sample_globals = Return g'
  /\ gCmpWithData g' = false
  /\ gOptDbURL g' = "mysql://db/NuScat"%string.
Proof.
  intros argv g'.
  assert (Hrun : GetCommandLineArgs argv sample_globals = Return g')
    by reflexivity.
  destruct (GetCommandLineArgs_settings argv sample_globals g' Hrun)
    as (Hcmp & Hurl & _).
  split; [exact Hrun|]. split; [exact Hcmp | exact Hurl].
Defined.

Lemma no_credentials_no_database_witness :
  let argv := ["-h"%string; "mysql://db/NuScat"%string; "-u"%string; "me"%string] in
  let g' := mkGlobals "mysql://db/NuScat"%string "me"%string ""%string [] false None in
  Connect g' = (true, g') /\ forall iset, Data iset g' = Return None.
Proof.
  intros argv g'.
  apply (no_credentials_no_database argv sample_globals g').
  - reflexivity.
  - right. reflexivity.
Defined.

End ProgramSamples.
